(** * Slab pool (slab_pool.go): a shallow embedding and its properties

    The pool keeps a slice of slabs sorted by descending base address and
    offers insertion ([add], [addSlab]), address lookup ([findSlabByAddr]),
    content search ([search], [searchBatched]) and deletion ([deleteSlab]).

    Conventions of the embedding:
    - addresses ([uintptr], [ObjAddr], [SlabAddr]) are [Z]; the pool only
      compares them, it never computes with them;
    - lengths, indices and counts ([int], [uint], [uint8]) are [nat]; the
      pool only converts them ([int(s.objSize)]) and counts with them up to
      a slice length, so no wrap-around can occur;
    - a [*slab] is modelled by the slab value it points to, carrying its own
      base address; the pool is the only owner of its slabs, so a slab
      mutated through the pool is replaced at its position in the slice;
    - the slab itself (its layout, [newSlab], [addObj], [getObjByIdx],
      [bitSet], [addr], [getTotalLength]) is not defined in slab_pool.go;
      it is modelled from the specification, and every such definition
      says so;
    - a run-time panic (index out of range) is the [Panic] outcome;
    - the two system calls are oracles: the outcome of [syscall.Mmap] is an
      argument of [add]/[addSlab], the behaviour of [syscall.Munmap] an
      argument of [deleteSlab];
    - the order in which the collector of [searchBatched] receives results
      from the per-slab goroutines is a schedule argument. *)

From Stdlib Require Import ZArith Lia String.
From Stdlib Require Import Init.Byte Strings.Byte.
From stdpp Require Import base list.

Local Open Scope nat_scope.

(** ** Go built-ins used by the pool *)

(** [copy(dst, src)]: the first [min (len dst) (len src)] elements of [dst]
    are overwritten by those of [src]; the result is the new content of
    [dst].  Overlap is harmless: Go copies as if through a buffer. *)
Definition goCopy {A : Type} (dst src : list A) : list A :=
  take (length dst) src ++ drop (length src) dst.

(** The loop of [sort.Search(n, f)]:
    [for i < j { h := int(uint(i+j) >> 1); if !f(h) { i = h + 1 } else { j = h } }].
    Every iteration shrinks [j - i], so [n] rounds of fuel are enough
    (see [searchLoop_fuel]). *)
Fixpoint searchLoop (fuel : nat) (f : nat -> bool) (i j : nat) : nat :=
  match fuel with
  | 0 => i
  | S fuel' =>
      if i <? j then
        let h := (i + j) / 2 in
        if negb (f h) then searchLoop fuel' f (S h) j
        else searchLoop fuel' f i h
      else i
  end.

Definition sortSearch (n : nat) (f : nat -> bool) : nat :=
  searchLoop n f 0 n.

(** Outcome of a piece of code that may panic. *)
Inductive outcome (A : Type) : Type :=
| Ret (a : A)
| Panic.
Arguments Ret {A} a.
Arguments Panic {A}.

Definition obind {A B : Type} (m : outcome A) (k : A -> outcome B) : outcome B :=
  match m with
  | Ret a => k a
  | Panic => Panic
  end.

Notation "'run' x '<-' m 'in' k" := (obind m (fun x => k))
  (at level 10, x pattern, m at level 100, k at level 200).

(** ** Addresses and errors *)

Definition ObjAddr := Z.
Definition SlabAddr := Z.

(** [Errno e] is a [syscall.Errno] handed back by mmap/munmap;
    [Errorf msg] is an error built by [fmt.Errorf]. *)
Inductive error : Type :=
| Errno (e : Z)
| Errorf (msg : string).

(** What the memory-mapping capability answers to a reservation. *)
Inductive mmapOutcome : Type :=
| MmapOk (base : Z)
| MmapFail (e : Z).

Section SlabPool.

(** Modelled from the spec: the length in bytes of a slab's header and
    bitmap ("bookkeeping overhead"), for a given number of objects per
    slab.  The slab lives in a file that is not among the sources at hand,
    and the spec gives no figure, so the length is left open. *)
Variable headerLen : nat -> nat.

(** ** The slab *)

(** Modelled from the spec: the slab, a mapped region with a header, one
    occupancy bit per slot and the slots' bytes in one contiguous range.
    [slab_bits] lists the bits and [slab_data] the bytes of the slots, slot
    after slot. *)
Record slab : Type := mkSlab {
  slab_base : Z;
  slab_objSize : nat;
  slab_objsPerSlab : nat;
  slab_bits : list bool;
  slab_data : list byte
}.

(** [&slab{}], the placeholder the pool puts into a slice cell it is about
    to overwrite or cut off. *)
Definition zeroSlab : slab := mkSlab 0 0 0 [] [].

(** Modelled from the spec: [addr()], the slab's stable base address. *)
Definition addr (sl : slab) : SlabAddr := slab_base sl.

(** Modelled from the spec: [bitSet().Test(i)], the occupancy bit of slot [i]. *)
Definition bitTest (sl : slab) (i : nat) : bool :=
  default false (slab_bits sl !! i).

(** Modelled from the spec: [getObjByIdx(i)], a view of the byte range of
    slot [i], whatever its occupancy bit. *)
Definition getObjByIdx (sl : slab) (i : nat) : list byte :=
  take (slab_objSize sl) (drop (i * slab_objSize sl) (slab_data sl)).

(** Modelled from the spec: the address of the first byte of slot [i]; the
    object storage follows the header and bitmap. *)
Definition slotAddr (sl : slab) (i : nat) : ObjAddr :=
  (slab_base sl + Z.of_nat (headerLen (slab_objsPerSlab sl))
   + Z.of_nat (i * slab_objSize sl))%Z.

(** Modelled from the spec: [objAddrFromObj], the address of a slot view. *)
Definition objAddrFromObj (sl : slab) (i : nat) : ObjAddr := slotAddr sl i.

(** Modelled from the spec: [getTotalLength()], header and bitmap overhead
    plus capacity times object size. *)
Definition getTotalLength (sl : slab) : nat :=
  headerLen (slab_objsPerSlab sl) + slab_objsPerSlab sl * slab_objSize sl.

(** Modelled from the spec: [newSlab], which maps fresh zero-filled memory
    for [objsPerSlab] objects of [objSize] bytes, or hands back the failure
    of the mapping. *)
Definition newSlab (objSize objsPerSlab : nat) (m : mmapOutcome) : slab + error :=
  match m with
  | MmapOk base =>
      inl (mkSlab base objSize objsPerSlab
             (replicate objsPerSlab false)
             (replicate (objsPerSlab * objSize) Byte.x00))
  | MmapFail e => inr (Errno e)
  end.

(** Modelled from the spec: the scan of [addObj] for a free slot, lowest
    index first, over the slots [i, i + n). *)
Fixpoint nextClear (sl : slab) (i n : nat) : option nat :=
  match n with
  | 0 => None
  | S n' => if bitTest sl i then nextClear sl (S i) n' else Some i
  end.

(** Modelled from the spec: [addObj], first fit by slot index.  On success
    the bytes are copied into the slot, its bit is set and the slot's
    address is returned; on a full slab nothing changes. *)
Definition addObj (sl : slab) (obj : list byte) : slab * ObjAddr * bool :=
  match nextClear sl 0 (slab_objsPerSlab sl) with
  | None => (sl, 0%Z, false)
  | Some i =>
      let off := i * slab_objSize sl in
      let data' :=
        take off (slab_data sl)
        ++ goCopy (getObjByIdx sl i) obj
        ++ drop (off + slab_objSize sl) (slab_data sl) in
      (mkSlab (slab_base sl) (slab_objSize sl) (slab_objsPerSlab sl)
         (<[i := true]> (slab_bits sl)) data',
       slotAddr sl i, true)
  end.

(** ** The pool *)

Record slabPool : Type := mkPool {
  slabs : list slab;
  objSize : nat;
  objsPerSlab : nat
}.

Definition NewSlabPool (objSize objsPerSlab : nat) : slabPool :=
  mkPool [] objSize objsPerSlab.

Definition withSlabs (s : slabPool) (l : list slab) : slabPool :=
  mkPool l (objSize s) (objsPerSlab s).

(** [s.slabs[i].addr()] inside the closures handed to [sort.Search], which
    only calls them with [i] below the slice length. *)
Definition addrAt (l : list slab) (i : nat) : Z :=
  default 0%Z (addr <$> l !! i).

(** [findSlabByAddr]: [sort.Search] for the first slab with [addr() <= obj]. *)
Definition findSlabByAddr (s : slabPool) (obj : Z) : nat :=
  sortSearch (length (slabs s)) (fun i => (addrAt (slabs s) i <=? obj)%Z).

(** [addSlab]: map a new slab, find where it goes, grow the slice by one
    placeholder, shift the tail one cell to the right and store the slab.
    The returned [*slab] points into the slice: it is modelled by the
    position of the new slab next to its value. *)
Definition addSlab (s : slabPool) (m : mmapOutcome)
  : slabPool * (nat * slab + error) :=
  match newSlab (objSize s) (objsPerSlab s) m with
  | inr err => (s, inr err)
  | inl addedSlab =>
      let newSlabAddr := addr addedSlab in
      let insertAt :=
        sortSearch (length (slabs s))
          (fun i => (addrAt (slabs s) i <? newSlabAddr)%Z) in
      let grown := slabs s ++ [zeroSlab] in
      let shifted :=
        take (S insertAt) grown
        ++ goCopy (drop (S insertAt) grown) (drop insertAt grown) in
      (withSlabs s (<[insertAt := addedSlab]> shifted),
       inl (insertAt, addedSlab))
  end.

(** The loop of [add] over [s.slabs]: [addObj] is called on one slab after
    the other until it succeeds.  The slice comes back as the calls left
    it, with the address of the added object if one of them succeeded. *)
Fixpoint addLoop (l : list slab) (obj : list byte) : list slab * option ObjAddr :=
  match l with
  | [] => ([], None)
  | currentSlab :: rest =>
      let '(sl', objAddr, success) := addObj currentSlab obj in
      if success then (sl' :: rest, Some objAddr)
      else
        let '(rest', found) := addLoop rest obj in
        (sl' :: rest', found)
  end.

Definition errNewSlab : error :=
  Errorf "Add: Failed adding object to new slab".

(** [add]: the results are the object address, the address of a newly
    created slab (0 if none was created) and the error, next to the pool as
    the call leaves it.  (Line 39 of the source declares [currentSlab] with
    the type [*sla]; it is read as [*slab], the type every use of the
    variable has.) *)
Definition add (s : slabPool) (obj : list byte) (m : mmapOutcome)
  : slabPool * (ObjAddr * SlabAddr * option error) :=
  let '(l', found) := addLoop (slabs s) obj in
  let s1 := withSlabs s l' in
  match found with
  | Some objAddr => (s1, (objAddr, 0%Z, None))
  | None =>
      match addSlab s1 m with
      | (s2, inr err) => (s2, (0%Z, 0%Z, Some err))
      | (s2, inl (at_, currentSlab)) =>
          let '(sl', objAddr, success) := addObj currentSlab obj in
          let s3 := withSlabs s2 (<[at_ := sl']> (slabs s2)) in
          if negb success then (s3, (0%Z, 0%Z, Some errNewSlab))
          else (s3, (objAddr, addr currentSlab, None))
      end
  end.

(** A run of [add] calls, each with the bytes to add and the answer the
    mapping capability has ready for it; the results are listed in call
    order. *)
Fixpoint addAll (s : slabPool) (calls : list (list byte * mmapOutcome))
  : slabPool * list (ObjAddr * SlabAddr * option error) :=
  match calls with
  | [] => (s, [])
  | (obj, m) :: rest =>
      let '(s', r) := add s obj m in
      let '(s'', rs) := addAll s' rest in
      (s'', r :: rs)
  end.

(** ** Content search *)

(** The byte comparison shared by [search] and [searchBatched]:
    [for j := 0; j < objSize; j++ { if a[j] != b[j] { continue } }],
    started at [j] with [n] rounds to go.  [Ret true]: the loop ran to its
    end; [Ret false]: a byte differs (the labelled [continue]); [Panic]: an
    index is out of range. *)
Fixpoint sameBytes (a b : list byte) (j n : nat) : outcome bool :=
  match n with
  | 0 => Ret true
  | S n' =>
      match a !! j, b !! j with
      | Some x, Some y =>
          if negb (Byte.eqb x y) then Ret false else sameBytes a b (S j) n'
      | _, _ => Panic
      end
  end.

(** [&obj[0]] as an [ObjAddr]: indexing an empty view panics. *)
Definition addrOfFirst (currentSlab : slab) (i : nat) (obj : list byte)
  : outcome ObjAddr :=
  match obj with
  | [] => Panic
  | _ :: _ => Ret (slotAddr currentSlab i)
  end.

(** The [OBJECT] loop of [search] over the slots [i, i + n) of one slab. *)
Fixpoint searchSlots (s : slabPool) (currentSlab : slab) (searching : list byte)
    (i n : nat) : outcome (option ObjAddr) :=
  match n with
  | 0 => Ret None
  | S n' =>
      if bitTest currentSlab i then
        let obj := getObjByIdx currentSlab i in
        run same <- sameBytes obj searching 0 (objSize s) in
        if same then
          run a <- addrOfFirst currentSlab i obj in Ret (Some a)
        else searchSlots s currentSlab searching (S i) n'
      else searchSlots s currentSlab searching (S i) n'
  end.

(** The loop of [search] over [s.slabs]. *)
Fixpoint searchSlabs (s : slabPool) (l : list slab) (searching : list byte)
  : outcome (ObjAddr * bool) :=
  match l with
  | [] => Ret (0%Z, false)
  | currentSlab :: rest =>
      run r <- searchSlots s currentSlab searching 0 (objsPerSlab s) in
      match r with
      | Some a => Ret (a, true)
      | None => searchSlabs s rest searching
      end
  end.

Definition search (s : slabPool) (searching : list byte)
  : outcome (ObjAddr * bool) :=
  if negb (length searching =? objSize s) then Ret (0%Z, false)
  else searchSlabs s (slabs s) searching.

(** *** searchBatched *)

(** What a goroutine pushes through [resChan]: [(idx, addr)]. *)
Definition result : Type := nat * ObjAddr.

(** The [SEARCH] loop: one stored object against the searched objects from
    index [k] on; every searched object that passes the comparison is sent
    with the address of the stored one. *)
Fixpoint matchTargets (n : nat) (storedObj : list byte) (a : ObjAddr)
    (k : nat) (searching : list (list byte)) : outcome (list result) :=
  match searching with
  | [] => Ret []
  | searchedObj :: rest =>
      run same <- sameBytes storedObj searchedObj 0 n in
      run more <- matchTargets n storedObj a (S k) rest in
      Ret (if same then (k, a) :: more else more)
  end.

(** The goroutine of one slab, over its slots [j, j + n): the results it
    sends, in the order it sends them. *)
Fixpoint slabTask (s : slabPool) (searching : list (list byte))
    (currentSlab : slab) (j n : nat) : outcome (list result) :=
  match n with
  | 0 => Ret []
  | S n' =>
      run here <-
        (if bitTest currentSlab j then
           matchTargets (objSize s) (getObjByIdx currentSlab j)
             (objAddrFromObj currentSlab j) 0 searching
         else Ret []) in
      run later <- slabTask s searching currentSlab (S j) n' in
      Ret (here ++ later)
  end.

(** One goroutine per slab; a panic in any of them takes the program down. *)
Fixpoint slabTasks (s : slabPool) (searching : list (list byte))
    (l : list slab) : outcome (list (list result)) :=
  match l with
  | [] => Ret []
  | currentSlab :: rest =>
      run q <- slabTask s searching currentSlab 0 (objsPerSlab s) in
      run qs <- slabTasks s searching rest in
      Ret (q :: qs)
  end.

(** The order in which the collector receives from the unbuffered channel:
    each entry of the schedule names the goroutine whose next send is taken
    (entries naming a goroutine with nothing left to send are skipped); what
    the schedule leaves over is taken in slab order. *)
Fixpoint mergeBy {A : Type} (sched : list nat) (qs : list (list A)) : list A :=
  match sched with
  | [] => concat qs
  | i :: sched' =>
      match qs !! i with
      | Some (x :: q) => x :: mergeBy sched' (<[i := q]> qs)
      | _ => mergeBy sched' qs
      end
  end.

(** What the collector can receive at all: an interleaving of the
    sequences the goroutines send.  [mergeBy] produces each of them
    (see [mergeBy_complete]). *)
Inductive interleaving {A : Type} : list (list A) -> list A -> Prop :=
| interleaving_done (qs : list (list A)) :
    Forall (fun q => q = []) qs -> interleaving qs []
| interleaving_recv (qs : list (list A)) (i : nat) (x : A) (q m : list A) :
    qs !! i = Some (x :: q) ->
    interleaving (<[i := q]> qs) m ->
    interleaving qs (x :: m).

(** [for res := range resChan { resultSet[res.idx] = res.addr }]. *)
Definition collect (received : list result) (resultSet : list ObjAddr)
  : list ObjAddr :=
  fold_left (fun rs res => <[fst res := snd res]> rs) received resultSet.

Definition searchBatched (s : slabPool) (searching : list (list byte))
    (sched : list nat) : outcome (list ObjAddr) :=
  run qs <- slabTasks s searching (slabs s) in
  Ret (collect (mergeBy sched qs) (replicate (length searching) 0%Z)).

(** ** Deletion *)

(** [deleteSlab]: look the slab up, take it out of the slice (shift the
    tail one cell to the left, clear the last cell, cut it off), then unmap
    the slab's region.  [munmap base len] is the answer of
    [syscall.Munmap] for that region: [None] on success, the errno
    otherwise. *)
Definition deleteSlab (munmap : Z -> nat -> option Z) (s : slabPool)
    (slabAddr : SlabAddr) : outcome (slabPool * option error) :=
  let slabIdx := findSlabByAddr s slabAddr in
  match slabs s !! slabIdx with
  | None => Panic
  | Some currentSlab =>
      let l := slabs s in
      let moved := take slabIdx l ++ goCopy (drop slabIdx l) (drop (S slabIdx) l) in
      let cleared := <[length moved - 1 := zeroSlab]> moved in
      let cut := take (length cleared - 1) cleared in
      let s' := withSlabs s cut in
      let totalLen := getTotalLength currentSlab in
      match munmap (addr currentSlab) totalLen with
      | Some e => Ret (s', Some (Errno e))
      | None => Ret (s', None)
      end
  end.

(** ** Notions the statements are about *)

(** Strictly descending: a later position holds a smaller address. *)
Definition descending (zs : list Z) : Prop :=
  forall i j x y, zs !! i = Some x -> zs !! j = Some y -> i < j -> (y < x)%Z.

(** The slab sequence is sorted by strictly descending base address. *)
Definition sortedDesc (l : list slab) : Prop := descending (addr <$> l).

(** A checker for [descending], for concrete sequences. *)
Fixpoint descendingb (zs : list Z) : bool :=
  match zs with
  | x :: (y :: _) as rest => (y <? x)%Z && descendingb rest
  | _ => true
  end.

(** [f] stays true once it is true, on the indices below [n]. *)
Definition monotone (n : nat) (f : nat -> bool) : Prop :=
  forall i j, i <= j -> j < n -> f i = true -> f j = true.

(** The base address [b] is the address of no slab of [l]. *)
Definition freshBase (l : list slab) (m : mmapOutcome) : Prop :=
  forall b, m = MmapOk b -> forall sl, sl ∈ l -> addr sl <> b.

(** [addObj] finds no free slot in [sl]. *)
Definition rejects (sl : slab) (obj : list byte) : Prop :=
  snd (addObj sl obj) = false.

(** The address [a] lies in the mapped region of [sl]. *)
Definition owns (sl : slab) (a : Z) : Prop :=
  (addr sl <= a < addr sl + Z.of_nat (getTotalLength sl))%Z.

(** A slab as [newSlab] makes it for the pool [s], in any state of use. *)
Definition wfSlab (s : slabPool) (sl : slab) : Prop :=
  slab_objSize sl = objSize s
  /\ slab_objsPerSlab sl = objsPerSlab s
  /\ length (slab_bits sl) = objsPerSlab s
  /\ length (slab_data sl) = objsPerSlab s * objSize s.

(** A pool within its construction parameters (object size at least 1)
    whose slabs are its own. *)
Definition wfPool (s : slabPool) : Prop :=
  0 < objSize s /\ Forall (wfSlab s) (slabs s).

(** Byte-for-byte equality of two byte sequences. *)
Fixpoint bytesEqb (a b : list byte) : bool :=
  match a, b with
  | [], [] => true
  | x :: a', y :: b' => Byte.eqb x y && bytesEqb a' b'
  | _, _ => false
  end.

(** Slot [i] of [sl] is occupied and holds exactly [bytes]. *)
Definition holds (sl : slab) (i : nat) (bytes : list byte) : Prop :=
  bitTest sl i = true /\ getObjByIdx sl i = bytes.

Definition holdsb (sl : slab) (i : nat) (bytes : list byte) : bool :=
  bitTest sl i && bytesEqb (getObjByIdx sl i) bytes.

(** The slots among [i, i + n) of [sl] that hold [bytes], ascending. *)
Fixpoint slotMatches (sl : slab) (bytes : list byte) (i n : nat) : list nat :=
  match n with
  | 0 => []
  | S n' =>
      if holdsb sl i bytes then i :: slotMatches sl bytes (S i) n'
      else slotMatches sl bytes (S i) n'
  end.

(** The addresses of all slots of [l] that hold [bytes]: slabs in sequence
    order, slots in ascending order. *)
Definition poolMatches (s : slabPool) (l : list slab) (bytes : list byte)
  : list ObjAddr :=
  l ≫= (fun sl => slotAddr sl <$> slotMatches sl bytes 0 (objsPerSlab s)).

(** [k] of the [n] slots of [sl] are taken: the first [k]. *)
Definition filled (sl : slab) (k n : nat) : Prop :=
  slab_objsPerSlab sl = n
  /\ slab_bits sl = replicate k true ++ replicate (n - k) false.

End SlabPool.

(** ** Example pools

    Object size 2, two objects per slab, 16 bytes of header and bitmap. *)

Definition hdr16 (objsPerSlab : nat) : nat := 16.

Definition objA : list byte := [x41; x41].
Definition objB : list byte := [x42; x42].
Definition objC : list byte := [x43; x43].

(** The slab at 1000 with "AA" in slot 0. *)
Definition slabA : slab := mkSlab 1000 2 2 [true; false] [x41; x41; x00; x00].

(** The slab at 1000 with "AA" and "BB": full. *)
Definition slabAB : slab := mkSlab 1000 2 2 [true; true] [x41; x41; x42; x42].

(** The slab at 3000 with "CC" in slot 0. *)
Definition slabC : slab := mkSlab 3000 2 2 [true; false] [x43; x43; x00; x00].

Definition poolA : slabPool := mkPool [slabA] 2 2.
Definition poolAB : slabPool := mkPool [slabAB] 2 2.
Definition poolABC : slabPool := mkPool [slabC; slabAB] 2 2.

(** The three calls that build [poolABC] from the empty pool. *)
Definition callsABC : list (list byte * mmapOutcome) :=
  [(objA, MmapOk 1000); (objB, MmapOk 2000); (objC, MmapOk 3000)].

(** An unmapping that always succeeds, and one that always fails (EINVAL). *)
Definition munmapOk (base : Z) (len : nat) : option Z := None.
Definition munmapFails (base : Z) (len : nat) : option Z := Some 22%Z.

(** A slab just mapped at 2000, and [poolABC] with it. *)
Definition slabNew : slab := mkSlab 2000 2 2 [false; false] [x00; x00; x00; x00].
Definition poolNew : slabPool := mkPool [slabNew] 2 2.
Definition poolCNAB : slabPool := mkPool [slabC; slabNew; slabAB] 2 2.

(** The base addresses the mapping capability has ready for a run of [add]
    calls. *)
Definition callBases (calls : list (list byte * mmapOutcome)) : list Z :=
  omap (fun c => match snd c with MmapOk b => Some b | MmapFail _ => None end)
       calls.

(** Membership in a concrete slab sequence, case by case. *)
Ltac each_slab H :=
  repeat (apply elem_of_cons in H as [->|H]); [..|by apply elem_of_nil in H].

(** * Properties *)

(** ** sort.Search and the slice operations *)

Lemma half_bounds i j : i < j -> i <= (i + j) / 2 < j.
Proof.
  intros Hij. split.
  - apply Nat.div_le_lower_bound; lia.
  - apply Nat.Div0.div_lt_upper_bound; lia.
Qed.

Lemma searchLoop_step fuel f i j :
  searchLoop (S fuel) f i j =
  if i <? j then
    if negb (f ((i + j) / 2)) then searchLoop fuel f (S ((i + j) / 2)) j
    else searchLoop fuel f i ((i + j) / 2)
  else i.
Proof. reflexivity. Qed.

Lemma searchLoop_correct n f : monotone n f ->
  forall fuel i j,
    i <= j -> j <= n -> j - i <= fuel ->
    (forall k, k < i -> f k = false) ->
    (forall k, j <= k -> k < n -> f k = true) ->
    let r := searchLoop fuel f i j in
    i <= r /\ r <= j /\ (forall k, k < r -> f k = false)
    /\ (forall k, r <= k -> k < n -> f k = true).
Proof.
  intros Hmono fuel. induction fuel as [|fuel IH]; intros i j Hij Hjn Hfuel Hlo Hhi.
  - assert (i = j) by lia. subst. simpl. repeat split; auto.
  - rewrite searchLoop_step. destruct (Nat.ltb_spec i j) as [Hlt|Hge].
    + pose proof (half_bounds i j Hlt) as [Hh1 Hh2].
      set (h := (i + j) / 2) in *.
      destruct (f h) eqn:Hf; cbn [negb].
      * assert (Hhi' : forall k, h <= k -> k < n -> f k = true).
        { intros k Hk1 Hk2. apply (Hmono h); auto. }
        destruct (IH i h ltac:(lia) ltac:(lia) ltac:(lia) Hlo Hhi') as (H1 & H2 & H3 & H4).
        repeat split; auto; lia.
      * assert (Hlo' : forall k, k < S h -> f k = false).
        { intros k Hk. destruct (f k) eqn:Hfk; auto.
          rewrite (Hmono k h) in Hf; [discriminate|lia|lia|auto]. }
        destruct (IH (S h) j ltac:(lia) ltac:(lia) ltac:(lia) Hlo' Hhi) as (H1 & H2 & H3 & H4).
        repeat split; auto; lia.
    + assert (i = j) by lia. subst. repeat split; auto.
Qed.

Lemma sortSearch_spec n f : monotone n f ->
  sortSearch n f <= n
  /\ (forall k, k < sortSearch n f -> f k = false)
  /\ (forall k, sortSearch n f <= k -> k < n -> f k = true).
Proof.
  intros Hmono. unfold sortSearch.
  destruct (searchLoop_correct n f Hmono n 0 n) as (H1 & H2 & H3 & H4); try lia.
  auto.
Qed.

Lemma insert_shift {A} (l : list A) (z x : A) (k : nat) :
  k <= length l ->
  <[k := x]> (take (S k) (l ++ [z])
              ++ goCopy (drop (S k) (l ++ [z])) (drop k (l ++ [z])))
  = take k l ++ x :: drop k l.
Proof.
  intros Hk. unfold goCopy.
  rewrite !length_drop, !length_app. cbn [length].
  replace (drop (length l + 1 - k) (drop (S k) (l ++ [z]))) with (@nil A)
    by (symmetry; apply drop_ge; rewrite length_drop, length_app; simpl; lia).
  rewrite app_nil_r.
  rewrite (drop_app_le l [z] k) by lia.
  rewrite (take_app_le (drop k l)) by (rewrite length_drop; lia).
  rewrite (take_ge (drop k l)) by (rewrite length_drop; lia).
  assert (Hlen : length (take k l) = k) by (rewrite length_take; lia).
  destruct (decide (k < length l)) as [Hlt|Hge].
  - destruct (lookup_lt_is_Some_2 l k Hlt) as [y Hy].
    rewrite take_app_le by lia.
    rewrite (take_S_r l k y Hy), <- app_assoc. simpl.
    rewrite insert_app_r_alt by lia. rewrite Hlen, Nat.sub_diag. reflexivity.
  - assert (k = length l) by lia. subst k.
    rewrite take_ge by (rewrite length_app; simpl; lia).
    rewrite drop_ge, take_ge by lia.
    rewrite <- app_assoc. simpl.
    rewrite insert_app_r_alt by lia. rewrite Nat.sub_diag. reflexivity.
Qed.

Lemma delete_shift {A} (l : list A) (z : A) (k : nat) :
  k < length l ->
  let moved := take k l ++ goCopy (drop k l) (drop (S k) l) in
  let cleared := <[length moved - 1 := z]> moved in
  take (length cleared - 1) cleared = take k l ++ drop (S k) l.
Proof.
  intros Hk moved cleared.
  assert (Hmoved : moved = (take k l ++ drop (S k) l) ++ drop (length l - 1) l).
  { unfold moved, goCopy. rewrite !length_drop.
    rewrite (take_ge (drop (S k) l)) by (rewrite length_drop; lia).
    rewrite drop_drop. replace (k + (length l - S k)) with (length l - 1) by lia.
    by rewrite app_assoc. }
  assert (Hlen : length (take k l ++ drop (S k) l) = length l - 1).
  { rewrite length_app, length_take, length_drop. lia. }
  assert (Hlast : exists y, drop (length l - 1) l = [y]).
  { destruct (lookup_lt_is_Some_2 l (length l - 1) ltac:(lia)) as [y Hy].
    exists y. rewrite (drop_S l y _ Hy). rewrite drop_ge by lia. reflexivity. }
  destruct Hlast as [y Hy].
  unfold cleared. rewrite length_insert. rewrite Hmoved, Hy.
  rewrite length_app, Hlen. cbn [length].
  replace (length l - 1 + 1 - 1) with (length l - 1) by lia.
  rewrite insert_app_r_alt by lia. rewrite Hlen, Nat.sub_diag. cbn [insert list_insert].
  rewrite <- Hlen. apply take_app_length.
Qed.

Lemma descending_nil : descending [].
Proof. intros i j x y Hi. by rewrite lookup_nil in Hi. Qed.

Lemma descending_cons x zs :
  descending (x :: zs) <-> (forall y, y ∈ zs -> (y < x)%Z) /\ descending zs.
Proof.
  split.
  - intros H. split.
    + intros y Hy. apply list_elem_of_lookup in Hy as [j Hj].
      apply (H 0 (S j) x y); simpl; auto; lia.
    + intros i j a b Hi Hj Hij. apply (H (S i) (S j)); simpl; auto; lia.
  - intros [Hx Hzs] i j a b Hi Hj Hij.
    destruct j as [|j]; [lia|]. simpl in Hj.
    destruct i as [|i]; simpl in Hi.
    + inversion Hi; subst. apply Hx. apply list_elem_of_lookup; eauto.
    + apply (Hzs i j); auto; lia.
Qed.

Lemma descendingb_true zs : descendingb zs = true -> descending zs.
Proof.
  induction zs as [|x [|y zs] IH]; intros H.
  - apply descending_nil.
  - apply descending_cons. split; [|apply descending_nil].
    intros y Hy. by apply elem_of_nil in Hy.
  - cbn [descendingb] in H. apply andb_prop in H as [Hyx Hrest].
    apply Z.ltb_lt in Hyx. specialize (IH Hrest).
    apply descending_cons. split; auto.
    intros w Hw. apply elem_of_cons in Hw as [->|Hw]; auto.
    apply descending_cons in IH as [Hall _]. specialize (Hall w Hw). lia.
Qed.

Lemma descending_insert zs k new :
  descending zs -> k <= length zs ->
  (forall i x, i < k -> zs !! i = Some x -> (new < x)%Z) ->
  (forall i x, k <= i -> zs !! i = Some x -> (x < new)%Z) ->
  descending (take k zs ++ new :: drop k zs).
Proof.
  intros Hd Hk Hbefore Hafter i j x y Hi Hj Hij.
  assert (Hlen : length (take k zs) = k) by (rewrite length_take; lia).
  assert (Hget : forall n v, (take k zs ++ new :: drop k zs) !! n = Some v ->
            (n < k /\ zs !! n = Some v) \/ (n = k /\ v = new)
            \/ (k < n /\ zs !! (n - 1) = Some v)).
  { intros n v Hn. apply lookup_app_Some in Hn as [Hn|[Hge Hn]].
    - apply lookup_take_Some in Hn as [Hn1 Hn2]. left. auto.
    - rewrite Hlen in Hge, Hn. destruct (n - k) as [|m] eqn:Hm; simpl in Hn.
      + right; left. split; [lia|congruence].
      + right; right. rewrite lookup_drop in Hn. split; [lia|].
        replace (n - 1) with (k + m) by lia. done. }
  apply Hget in Hi as [[Hi1 Hi2]|[[Hi1 ->]|[Hi1 Hi2]]];
    apply Hget in Hj as [[Hj1 Hj2]|[[Hj1 ->]|[Hj1 Hj2]]]; try lia.
  - apply (Hd i j); auto.
  - apply (Hbefore i); auto.
  - apply (Hd i (j - 1)); auto; lia.
  - apply (Hafter (j - 1)); auto; lia.
  - apply (Hd (i - 1) (j - 1)); auto; lia.
Qed.

Lemma descending_delete zs k :
  descending zs -> descending (take k zs ++ drop (S k) zs).
Proof.
  intros Hd i j x y Hi Hj Hij.
  assert (Hget : forall n v, (take k zs ++ drop (S k) zs) !! n = Some v ->
            (n < k /\ zs !! n = Some v) \/ (k <= n /\ zs !! (S n) = Some v)).
  { intros n v Hn. apply lookup_app_Some in Hn as [Hn|[Hge Hn]].
    - apply lookup_take_Some in Hn as [Hn1 Hn2]. left. auto.
    - rewrite lookup_drop in Hn. rewrite length_take in Hge, Hn.
      apply lookup_lt_Some in Hn as Hlt.
      right. split; [lia|]. replace (S n) with (S k + (n - k `min` length zs)) by lia.
      done. }
  apply Hget in Hi as [[Hi1 Hi2]|[Hi1 Hi2]];
    apply Hget in Hj as [[Hj1 Hj2]|[Hj1 Hj2]]; try lia.
  - apply (Hd i j); auto.
  - apply (Hd i (S j)); auto; lia.
  - apply (Hd (S i) (S j)); auto; lia.
Qed.

Lemma addrAt_lookup l i sl : l !! i = Some sl -> addrAt l i = addr sl.
Proof. intros H. unfold addrAt. by rewrite H. Qed.

Lemma sortedDesc_addrAt l i j :
  sortedDesc l -> i < j -> j < length l -> (addrAt l j < addrAt l i)%Z.
Proof.
  intros Hs Hij Hj.
  destruct (lookup_lt_is_Some_2 l i ltac:(lia)) as [a Ha].
  destruct (lookup_lt_is_Some_2 l j Hj) as [b Hb].
  rewrite (addrAt_lookup _ _ _ Ha), (addrAt_lookup _ _ _ Hb).
  apply (Hs i j); auto; rewrite list_lookup_fmap; [by rewrite Ha|by rewrite Hb].
Qed.

Lemma monotone_le l obj : sortedDesc l ->
  monotone (length l) (fun i => (addrAt l i <=? obj)%Z).
Proof.
  intros Hs i j Hij Hj Hi. apply Z.leb_le in Hi. apply Z.leb_le.
  destruct (decide (i = j)) as [->|Hne]; auto.
  pose proof (sortedDesc_addrAt l i j Hs ltac:(lia) Hj). lia.
Qed.

Lemma monotone_lt l obj : sortedDesc l ->
  monotone (length l) (fun i => (addrAt l i <? obj)%Z).
Proof.
  intros Hs i j Hij Hj Hi. apply Z.ltb_lt in Hi. apply Z.ltb_lt.
  destruct (decide (i = j)) as [->|Hne]; auto.
  pose proof (sortedDesc_addrAt l i j Hs ltac:(lia) Hj). lia.
Qed.

Lemma findSlabByAddr_char (s : slabPool) (a : Z) :
  sortedDesc (slabs s) ->
  (forall sl, sl ∈ slabs s -> (addr sl <= a)%Z ->
     exists best, slabs s !! findSlabByAddr s a = Some best
       /\ (addr best <= a)%Z
       /\ forall sl', sl' ∈ slabs s -> (addr sl' <= a)%Z -> (addr sl' <= addr best)%Z)
  /\ ((forall sl, sl ∈ slabs s -> (a < addr sl)%Z) ->
      findSlabByAddr s a = length (slabs s)).
Proof.
  intros Hs. unfold findSlabByAddr.
  destruct (sortSearch_spec _ _ (monotone_le (slabs s) a Hs)) as (Hle & Hlo & Hhi).
  set (r := sortSearch _ _) in *.
  split.
  - intros sl Hin Hsl. apply list_elem_of_lookup in Hin as [k Hk].
    assert (Hklen : k < length (slabs s)) by (eapply lookup_lt_Some; eauto).
    assert (Hr : r < length (slabs s)).
    { destruct (decide (r < length (slabs s))); auto.
      specialize (Hlo k ltac:(lia)). apply Z.leb_gt in Hlo.
      rewrite (addrAt_lookup _ _ _ Hk) in Hlo. lia. }
    destruct (lookup_lt_is_Some_2 _ _ Hr) as [best Hbest].
    exists best. split; auto.
    specialize (Hhi r ltac:(lia) Hr). apply Z.leb_le in Hhi.
    rewrite (addrAt_lookup _ _ _ Hbest) in Hhi. split; auto.
    intros sl' Hin' Hsl'. apply list_elem_of_lookup in Hin' as [k' Hk'].
    assert (Hk'len : k' < length (slabs s)) by (eapply lookup_lt_Some; eauto).
    destruct (decide (k' < r)) as [Hlt|Hge].
    + specialize (Hlo k' Hlt). apply Z.leb_gt in Hlo.
      rewrite (addrAt_lookup _ _ _ Hk') in Hlo. lia.
    + destruct (decide (k' = r)) as [->|Hne].
      * rewrite Hbest in Hk'. inversion Hk'. lia.
      * pose proof (sortedDesc_addrAt _ r k' Hs ltac:(lia) Hk'len) as Hd.
        rewrite (addrAt_lookup _ _ _ Hk'), (addrAt_lookup _ _ _ Hbest) in Hd. lia.
  - intros Hall. destruct (decide (r < length (slabs s))) as [Hr|]; [|lia].
    destruct (lookup_lt_is_Some_2 _ _ Hr) as [sl Hsl].
    specialize (Hhi r ltac:(lia) Hr). apply Z.leb_le in Hhi.
    rewrite (addrAt_lookup _ _ _ Hsl) in Hhi.
    assert (sl ∈ slabs s) by (apply list_elem_of_lookup; eauto).
    specialize (Hall sl H). lia.
Qed.

Lemma searchLoop_bounds f fuel : forall i j,
  i <= j -> i <= searchLoop fuel f i j <= j.
Proof.
  induction fuel as [|fuel IH]; intros i j Hij.
  - simpl. lia.
  - rewrite searchLoop_step. destruct (Nat.ltb_spec i j) as [Hlt|Hge]; [|lia].
    pose proof (half_bounds i j Hlt) as [Hh1 Hh2].
    destruct (negb _).
    + specialize (IH (S ((i + j) / 2)) j ltac:(lia)). lia.
    + specialize (IH i ((i + j) / 2) ltac:(lia)). lia.
Qed.

(** The fuel never runs out: any amount that covers [j - i] gives the
    same answer, so [searchLoop] is the loop of [sort.Search] run to its
    end, for every [f]. *)
Lemma searchLoop_fuel f fuel : forall fuel' i j,
  j - i <= fuel -> j - i <= fuel' ->
  searchLoop fuel f i j = searchLoop fuel' f i j.
Proof.
  induction fuel as [|fuel IH]; intros fuel' i j H1 H2.
  - destruct fuel' as [|fuel']; [reflexivity|]. rewrite searchLoop_step.
    destruct (Nat.ltb_spec i j); [lia|reflexivity].
  - rewrite searchLoop_step. destruct fuel' as [|fuel'].
    + destruct (Nat.ltb_spec i j); [lia|reflexivity].
    + rewrite searchLoop_step. destruct (Nat.ltb_spec i j) as [Hlt|Hge]; [|reflexivity].
      pose proof (half_bounds i j Hlt) as [Hh1 Hh2].
      destruct (negb _); apply IH; lia.
Qed.

Lemma sortSearch_le n f : sortSearch n f <= n.
Proof. unfold sortSearch. pose proof (searchLoop_bounds f n 0 n). lia. Qed.

Lemma withSlabs_id s : withSlabs s (slabs s) = s.
Proof. by destruct s. Qed.

Section Insertion.
Variable hl : nat -> nat.

(** The slab [newSlab] makes at [base] for the pool [s]. *)
Lemma newSlab_ok objSize objsPerSlab base :
  exists ns, newSlab objSize objsPerSlab (MmapOk base) = inl ns
    /\ addr ns = base
    /\ slab_objSize ns = objSize
    /\ filled ns 0 objsPerSlab.
Proof.
  eexists. split; [reflexivity|]. repeat split. simpl.
  by rewrite Nat.sub_0_r.
Qed.

Lemma addSlab_fail s e : addSlab s (MmapFail e) = (s, inr (Errno e)).
Proof. reflexivity. Qed.

Lemma addSlab_ok s base ns :
  newSlab (objSize s) (objsPerSlab s) (MmapOk base) = inl ns ->
  exists k, k <= length (slabs s)
    /\ k = sortSearch (length (slabs s)) (fun i => (addrAt (slabs s) i <? base)%Z)
    /\ addSlab s (MmapOk base)
       = (withSlabs s (take k (slabs s) ++ ns :: drop k (slabs s)), inl (k, ns)).
Proof.
  intros Hns. unfold addSlab. rewrite Hns.
  assert (Hb : addr ns = base) by (simpl in Hns; inversion Hns; reflexivity).
  rewrite Hb.
  set (k := sortSearch _ _).
  exists k. split; [apply sortSearch_le|]. split; [reflexivity|].
  rewrite insert_shift by apply sortSearch_le. reflexivity.
Qed.

Lemma sortedDesc_insert l base ns :
  sortedDesc l -> addr ns = base ->
  (forall sl, sl ∈ l -> addr sl <> base) ->
  let k := sortSearch (length l) (fun i => (addrAt l i <? base)%Z) in
  sortedDesc (take k l ++ ns :: drop k l).
Proof.
  intros Hs Hb Hfresh k. unfold sortedDesc.
  rewrite fmap_app, fmap_cons, fmap_take, fmap_drop, Hb.
  destruct (sortSearch_spec _ _ (monotone_lt l base Hs)) as (Hle & Hlo & Hhi).
  fold k in Hle, Hlo, Hhi.
  apply descending_insert; auto.
  - by rewrite length_fmap.
  - intros i x Hik Hx. rewrite list_lookup_fmap in Hx.
    destruct (l !! i) as [sl|] eqn:Hsl; [|discriminate]. simpl in Hx. inversion Hx; subst x.
    specialize (Hlo i Hik). apply Z.ltb_ge in Hlo.
    rewrite (addrAt_lookup _ _ _ Hsl) in Hlo.
    assert (addr sl <> base) by (apply Hfresh, list_elem_of_lookup; eauto). lia.
  - intros i x Hik Hx. rewrite list_lookup_fmap in Hx.
    destruct (l !! i) as [sl|] eqn:Hsl; [|discriminate]. simpl in Hx. inversion Hx; subst x.
    apply lookup_lt_Some in Hsl as Hlt.
    specialize (Hhi i Hik Hlt). apply Z.ltb_lt in Hhi.
    by rewrite (addrAt_lookup _ _ _ Hsl) in Hhi.
Qed.

Lemma addObj_addr sl obj : addr (fst (fst (addObj hl sl obj))) = addr sl.
Proof. unfold addObj. by destruct (nextClear _ _ _). Qed.

Lemma addObj_rejects sl obj :
  rejects hl sl obj -> addObj hl sl obj = (sl, 0%Z, false).
Proof.
  unfold rejects, addObj. destruct (nextClear _ _ _); [discriminate|done].
Qed.

Lemma addLoop_addrs l obj :
  addr <$> fst (addLoop hl l obj) = addr <$> l.
Proof.
  induction l as [|sl l IH]; [done|]. simpl.
  pose proof (addObj_addr sl obj) as Ha.
  destruct (addObj hl sl obj) as [[sl' a] ok]. simpl in Ha.
  destruct ok; cbn [fst]; [by rewrite !fmap_cons, Ha|].
  destruct (addLoop hl l obj) as [rest' found]. cbn [fst] in *. rewrite !fmap_cons. by rewrite Ha, IH.
Qed.

Lemma addLoop_rejected l obj :
  Forall (fun sl => rejects hl sl obj) l -> addLoop hl l obj = (l, None).
Proof.
  induction 1 as [|sl l Hsl _ IH]; [done|]. simpl.
  rewrite (addObj_rejects _ _ Hsl), IH. reflexivity.
Qed.

Lemma addLoop_accepted pre sl post obj sl' a :
  Forall (fun x => rejects hl x obj) pre ->
  addObj hl sl obj = (sl', a, true) ->
  addLoop hl (pre ++ sl :: post) obj = (pre ++ sl' :: post, Some a).
Proof.
  intros Hpre Hsl. induction Hpre as [|x pre Hx _ IH]; simpl.
  - by rewrite Hsl.
  - by rewrite (addObj_rejects _ _ Hx), IH.
Qed.

(** Every run of the loop is one of the two above. *)
Lemma addLoop_cases l obj :
  Forall (fun sl => rejects hl sl obj) l
  \/ exists pre sl post sl' a, l = pre ++ sl :: post
       /\ Forall (fun x => rejects hl x obj) pre
       /\ addObj hl sl obj = (sl', a, true).
Proof.
  induction l as [|x l IH]; [by left|].
  destruct (addObj hl x obj) as [[sl' a] ok] eqn:Hx. destruct ok.
  - right. exists [], x, l, sl', a. auto.
  - assert (Hr : rejects hl x obj) by (unfold rejects; by rewrite Hx).
    destruct IH as [IH|(pre & sl & post & sl2 & a2 & -> & Hpre & Hsl)].
    + left. by constructor.
    + right. exists (x :: pre), sl, post, sl2, a2. split; [done|]. split; [by constructor|done].
Qed.

End Insertion.

Section Pool.
Variable hl : nat -> nat.

Lemma add_existing s obj m pre sl post sl' a :
  slabs s = pre ++ sl :: post ->
  Forall (fun x => rejects hl x obj) pre ->
  addObj hl sl obj = (sl', a, true) ->
  add hl s obj m = (withSlabs s (pre ++ sl' :: post), (a, 0%Z, None)).
Proof.
  intros Hl Hpre Hsl. unfold add.
  rewrite Hl, (addLoop_accepted hl pre sl post obj sl' a Hpre Hsl). reflexivity.
Qed.

Lemma add_mmap_fail s obj e :
  Forall (fun x => rejects hl x obj) (slabs s) ->
  add hl s obj (MmapFail e) = (s, (0%Z, 0%Z, Some (Errno e))).
Proof.
  intros Hall. unfold add. rewrite (addLoop_rejected hl _ _ Hall).
  rewrite withSlabs_id. reflexivity.
Qed.

Lemma add_new s obj base ns :
  Forall (fun x => rejects hl x obj) (slabs s) ->
  newSlab (objSize s) (objsPerSlab s) (MmapOk base) = inl ns ->
  let k := sortSearch (length (slabs s)) (fun i => (addrAt (slabs s) i <? base)%Z) in
  add hl s obj (MmapOk base) =
    (withSlabs s (take k (slabs s) ++ fst (fst (addObj hl ns obj)) :: drop k (slabs s)),
     if snd (addObj hl ns obj)
     then (snd (fst (addObj hl ns obj)), base, None)
     else (0%Z, 0%Z, Some errNewSlab)).
Proof.
  intros Hall Hns k. unfold add. rewrite (addLoop_rejected hl _ _ Hall).
  rewrite withSlabs_id.
  destruct (addSlab_ok s base ns Hns) as (k' & Hk' & Hkeq & Hadd).
  fold k in Hkeq. subst k'. rewrite Hadd.
  assert (Hb : addr ns = base) by (simpl in Hns; inversion Hns; reflexivity).
  destruct (addObj hl ns obj) as [[ns' a] ok]. cbn [fst snd].
  assert (Hins : <[k := ns']> (slabs (withSlabs s (take k (slabs s) ++ ns :: drop k (slabs s))))
                 = take k (slabs s) ++ ns' :: drop k (slabs s)).
  { cbn [slabs withSlabs]. rewrite insert_app_r_alt by (rewrite length_take; lia).
    rewrite length_take. replace (k - k `min` length (slabs s)) with 0 by lia.
    reflexivity. }
  rewrite Hins. destruct ok; cbn [negb]; unfold withSlabs; cbn [objSize objsPerSlab]; by rewrite ?Hb.
Qed.

Lemma deleteSlab_in_range munmap s a cur :
  slabs s !! findSlabByAddr s a = Some cur ->
  deleteSlab hl munmap s a =
    Ret (withSlabs s (delete (findSlabByAddr s a) (slabs s)),
         Errno <$> munmap (addr cur) (getTotalLength hl cur)).
Proof.
  intros Hcur. unfold deleteSlab. rewrite Hcur.
  apply lookup_lt_Some in Hcur as Hlt.
  rewrite (delete_shift (slabs s) zeroSlab _ Hlt), <- delete_take_drop.
  by destruct (munmap _ _).
Qed.

Lemma deleteSlab_out_of_range munmap s a :
  findSlabByAddr s a = length (slabs s) ->
  deleteSlab hl munmap s a = Panic.
Proof.
  intros Hk. unfold deleteSlab. rewrite Hk.
  by rewrite (lookup_ge_None_2 (slabs s) (length (slabs s))) by lia.
Qed.

Lemma sortedDesc_delete l k : sortedDesc l -> sortedDesc (delete k l).
Proof.
  unfold sortedDesc. intros Hs.
  rewrite delete_take_drop, fmap_app, fmap_take, fmap_drop.
  by apply descending_delete.
Qed.

Lemma sortedDesc_addr_inj l i j a b :
  sortedDesc l -> l !! i = Some a -> l !! j = Some b -> addr a = addr b -> i = j.
Proof.
  intros Hs Ha Hb Hab.
  assert (Ha' : (addr <$> l) !! i = Some (addr a)) by (by rewrite list_lookup_fmap, Ha).
  assert (Hb' : (addr <$> l) !! j = Some (addr b)) by (by rewrite list_lookup_fmap, Hb).
  destruct (Nat.lt_trichotomy i j) as [Hlt|[Heq|Hgt]]; auto.
  - pose proof (Hs i j _ _ Ha' Hb' Hlt). lia.
  - pose proof (Hs j i _ _ Hb' Ha' Hgt). lia.
Qed.

Lemma findSlabByAddr_base s cur :
  sortedDesc (slabs s) -> cur ∈ slabs s ->
  slabs s !! findSlabByAddr s (addr cur) = Some cur.
Proof.
  intros Hs Hin.
  destruct (findSlabByAddr_char s (addr cur) Hs) as [Hfound _].
  destruct (Hfound cur Hin ltac:(lia)) as (best & Hbest & Hle & Hmax).
  specialize (Hmax cur Hin ltac:(lia)).
  apply list_elem_of_lookup in Hin as [k Hk].
  assert (findSlabByAddr s (addr cur) = k).
  { eapply sortedDesc_addr_inj; eauto. lia. }
  congruence.
Qed.

End Pool.

Section PoolOrderAndUpdates.
Variable hl : nat -> nat.

(** ** The order of the slab sequence *)

(** C1: if the slab sequence is sorted by strictly descending base address
    and a newly mapped slab gets an address no slab of the pool has, then
    the sequence is sorted in the same way after a call of [add], of
    [addSlab] and of [deleteSlab]. *)
Theorem sortedDesc_preserved (s : slabPool) :
  sortedDesc (slabs s) ->
  (forall obj m, freshBase (slabs s) m ->
     sortedDesc (slabs (fst (add hl s obj m))))
  /\ (forall m, freshBase (slabs s) m ->
        sortedDesc (slabs (fst (addSlab s m))))
  /\ (forall munmap a s' err,
        deleteSlab hl munmap s a = Ret (s', err) -> sortedDesc (slabs s')).
Proof.
  intros Hs. split; [|split].
  - intros obj m Hfresh.
    destruct (addLoop_cases hl (slabs s) obj)
      as [Hall|(pre & sl & post & sl' & a & Hl & Hpre & Hsl)].
    + destruct m as [base|e].
      * destruct (newSlab_ok (objSize s) (objsPerSlab s) base) as (ns & Hns & Hb & _).
        rewrite (add_new hl s obj base ns Hall Hns). cbn [fst slabs withSlabs].
        apply sortedDesc_insert;
          [exact Hs | rewrite addObj_addr; exact Hb
          | intros sl Hin; by apply (Hfresh base)].
      * by rewrite (add_mmap_fail hl s obj e Hall).
    + rewrite (add_existing hl s obj m pre sl post sl' a Hl Hpre Hsl).
      cbn [fst slabs withSlabs]. unfold sortedDesc in *.
      rewrite Hl in Hs. rewrite fmap_app, fmap_cons in *.
      pose proof (addObj_addr hl sl obj) as Ha. rewrite Hsl in Ha. cbn [fst] in Ha.
      by rewrite Ha.
  - intros m Hfresh. destruct m as [base|e]; [|by rewrite addSlab_fail].
    destruct (newSlab_ok (objSize s) (objsPerSlab s) base) as (ns & Hns & Hb & _).
    destruct (addSlab_ok s base ns Hns) as (k & _ & Hk & ->). subst k.
    cbn [fst slabs withSlabs].
    apply sortedDesc_insert; [exact Hs | exact Hb | intros sl Hin; by apply (Hfresh base)].
  - intros munmap a s' err Hdel.
    destruct (slabs s !! findSlabByAddr s a) as [cur|] eqn:Hcur.
    + rewrite (deleteSlab_in_range hl munmap s a cur Hcur) in Hdel.
      inversion Hdel; subst. cbn [slabs withSlabs]. by apply sortedDesc_delete.
    + unfold deleteSlab in Hdel. rewrite Hcur in Hdel. discriminate.
Qed.

(** C2: on a pool sorted by strictly descending base address,
    [findSlabByAddr a] is the index of the slab with the greatest base
    address that is at most [a]; if no slab has a base address at most [a]
    (so on the empty pool) it is the length of the slab sequence. *)
Theorem findSlabByAddr_greatest_le (s : slabPool) (a : Z) :
  sortedDesc (slabs s) ->
  (forall sl, sl ∈ slabs s -> (addr sl <= a)%Z ->
     exists best, slabs s !! findSlabByAddr s a = Some best
       /\ (addr best <= a)%Z
       /\ forall sl', sl' ∈ slabs s -> (addr sl' <= a)%Z ->
            (addr sl' <= addr best)%Z)
  /\ ((forall sl, sl ∈ slabs s -> (a < addr sl)%Z) ->
      findSlabByAddr s a = length (slabs s))
  /\ (slabs s = [] -> findSlabByAddr s a = length (slabs s)).
Proof.
  intros Hs. destruct (findSlabByAddr_char s a Hs) as [Hfound Hnone].
  split; [exact Hfound|]. split; [exact Hnone|].
  intros Hnil. apply Hnone. rewrite Hnil. intros sl Hin.
  by apply elem_of_nil in Hin.
Qed.

(** ** Insertion *)

(** C3: [add] gives the object to the first slab of the sequence whose
    [addObj] succeeds and answers that slab's object address and 0 for the
    slab address, whatever the mapping capability would have answered.  If
    every slab rejects the object (or there is none) a new slab is mapped
    and put where the order asks for it; if its [addObj] succeeds the
    answer is the object address and the new slab's base address, and if it
    fails the answer is an error that is no mapping failure. *)
Theorem add_first_fit_else_new_slab (s : slabPool) (obj : list byte) :
  (forall m pre sl post sl' a,
     slabs s = pre ++ sl :: post ->
     Forall (fun x => rejects hl x obj) pre ->
     addObj hl sl obj = (sl', a, true) ->
     add hl s obj m = (withSlabs s (pre ++ sl' :: post), (a, 0%Z, None)))
  /\ (Forall (fun x => rejects hl x obj) (slabs s) ->
      forall base, exists ns k,
        newSlab (objSize s) (objsPerSlab s) (MmapOk base) = inl ns
        /\ addr ns = base
        /\ k <= length (slabs s)
        /\ (sortedDesc (slabs s) -> freshBase (slabs s) (MmapOk base) ->
            sortedDesc (take k (slabs s) ++ ns :: drop k (slabs s)))
        /\ (forall ns' a, addObj hl ns obj = (ns', a, true) ->
              add hl s obj (MmapOk base) =
                (withSlabs s (take k (slabs s) ++ ns' :: drop k (slabs s)),
                 (a, base, None)))
        /\ (forall ns' a, addObj hl ns obj = (ns', a, false) ->
              exists err,
                add hl s obj (MmapOk base) =
                  (withSlabs s (take k (slabs s) ++ ns' :: drop k (slabs s)),
                   (0%Z, 0%Z, Some err))
                /\ forall e, err <> Errno e)).
Proof.
  split.
  - intros m pre sl post sl' a. apply add_existing.
  - intros Hall base.
    destruct (newSlab_ok (objSize s) (objsPerSlab s) base) as (ns & Hns & Hb & _).
    exists ns, (sortSearch (length (slabs s)) (fun i => (addrAt (slabs s) i <? base)%Z)).
    split; [exact Hns|]. split; [exact Hb|]. split; [apply sortSearch_le|].
    split; [|split].
    + intros Hs Hfresh.
      apply sortedDesc_insert; [exact Hs | exact Hb | intros sl Hin; by apply (Hfresh base)].
    + intros ns' a Hadd. rewrite (add_new hl s obj base ns Hall Hns).
      by rewrite Hadd.
    + intros ns' a Hadd. exists errNewSlab.
      rewrite (add_new hl s obj base ns Hall Hns). rewrite Hadd. cbn [fst snd].
      split; [reflexivity|]. intros e. discriminate.
Qed.

(** C10: when no slab of the pool takes the object and mapping the memory
    of a new slab fails, [add] answers [(0, 0, error)] with the error of the
    mapping, and the pool is exactly what it was before the call. *)
Theorem add_mmap_failure_leaves_pool (s : slabPool) (obj : list byte) (e : Z) :
  Forall (fun x => rejects hl x obj) (slabs s) ->
  add hl s obj (MmapFail e) = (s, (0%Z, 0%Z, Some (Errno e))).
Proof. apply add_mmap_fail. Qed.

(** ** Deletion *)

(** C8, as the code has it: when every slab of the pool has a base address
    above [a] (so on the empty pool) the lookup answers the length of the
    slab sequence and [deleteSlab] indexes the slice out of range: it
    panics, no error is returned. *)
Theorem deleteSlab_below_all_panics (munmap : Z -> nat -> option Z)
    (s : slabPool) (a : Z) :
  (forall sl, sl ∈ slabs s -> (a < addr sl)%Z) ->
  findSlabByAddr s a = length (slabs s)
  /\ deleteSlab hl munmap s a = Panic.
Proof.
  intros Hall.
  assert (Hfalse : forall i, i < length (slabs s) ->
            (addrAt (slabs s) i <=? a)%Z = false).
  { intros i Hi. destruct (lookup_lt_is_Some_2 _ _ Hi) as [sl Hsl].
    rewrite (addrAt_lookup _ _ _ Hsl). apply Z.leb_gt.
    apply Hall, list_elem_of_lookup. eauto. }
  assert (Hk : findSlabByAddr s a = length (slabs s)).
  { unfold findSlabByAddr.
    assert (Hmono : monotone (length (slabs s))
                      (fun i => (addrAt (slabs s) i <=? a)%Z)).
    { intros i j Hij Hj Hi. rewrite Hfalse in Hi by lia. discriminate. }
    destruct (sortSearch_spec _ _ Hmono) as (Hle & _ & Hhi).
    set (r := sortSearch _ _) in *.
    destruct (decide (r < length (slabs s))) as [Hr|]; [exfalso|lia].
    specialize (Hhi r ltac:(lia) Hr). rewrite Hfalse in Hhi by lia. discriminate. }
  split; [exact Hk|]. by apply deleteSlab_out_of_range.
Qed.

(** C9: on a sorted pool that holds the slab [cur], [deleteSlab] called
    with the address of [cur] takes [cur] out of the slab sequence, the
    other slabs staying in their order, and hands its region to the
    unmapping; whatever the unmapping answers, and so also when it fails
    and [deleteSlab] returns its error, the pool that is left has no slab
    with the address of [cur]. *)
Theorem deleteSlab_unlinks_even_on_munmap_error (munmap : Z -> nat -> option Z)
    (s : slabPool) (cur : slab) :
  sortedDesc (slabs s) -> cur ∈ slabs s ->
  exists k,
    slabs s !! k = Some cur
    /\ (forall sl, sl ∈ delete k (slabs s) -> addr sl <> addr cur)
    /\ deleteSlab hl munmap s (addr cur) =
         Ret (withSlabs s (delete k (slabs s)),
              Errno <$> munmap (addr cur) (getTotalLength hl cur))
    /\ (forall e, munmap (addr cur) (getTotalLength hl cur) = Some e ->
          deleteSlab hl munmap s (addr cur) =
            Ret (withSlabs s (delete k (slabs s)), Some (Errno e))).
Proof.
  intros Hs Hin.
  pose proof (findSlabByAddr_base s cur Hs Hin) as Hcur.
  exists (findSlabByAddr s (addr cur)).
  split; [exact Hcur|].
  pose proof (deleteSlab_in_range hl munmap s (addr cur) cur Hcur) as Hdel.
  split; [|split; [exact Hdel|]].
  - intros sl Hsl Heq. apply list_elem_of_lookup in Hsl as [i Hi].
    set (k := findSlabByAddr s (addr cur)) in *.
    destruct (decide (i < k)) as [Hlt|Hge].
    + rewrite list_lookup_delete_lt in Hi by lia.
      pose proof (sortedDesc_addr_inj _ _ _ _ _ Hs Hi Hcur Heq). lia.
    + rewrite list_lookup_delete_ge in Hi by lia.
      pose proof (sortedDesc_addr_inj _ _ _ _ _ Hs Hi Hcur Heq). lia.
  - intros e He. rewrite Hdel, He. reflexivity.
Qed.

End PoolOrderAndUpdates.

Section Capacity.
Variable hl : nat -> nat.

Lemma bitTest_filled sl k n j :
  filled sl k n -> bitTest sl j = bool_decide (j < k).
Proof.
  intros [_ Hbits]. unfold bitTest. rewrite Hbits.
  destruct (decide (j < k)) as [Hlt|Hge].
  - rewrite bool_decide_eq_true_2 by done.
    rewrite lookup_app_l by (rewrite length_replicate; lia).
    by rewrite lookup_replicate_2.
  - rewrite bool_decide_eq_false_2 by done.
    rewrite lookup_app_r by (rewrite length_replicate; lia).
    destruct (replicate (n - k) false !! (j - length (replicate k true))) eqn:Hr;
      [|done].
    apply lookup_replicate in Hr as [-> _]. done.
Qed.

Lemma nextClear_filled sl k n : filled sl k n ->
  forall m i, i <= k ->
    nextClear sl i m = if decide (k < i + m) then Some k else None.
Proof.
  intros Hf m. induction m as [|m IH]; intros i Hik; simpl.
  - rewrite decide_False by lia. done.
  - rewrite (bitTest_filled sl k n i Hf).
    destruct (decide (i < k)) as [Hlt|Hge].
    + rewrite bool_decide_eq_true_2 by done. rewrite IH by lia.
      destruct (decide (k < S i + m)), (decide (k < i + S m)); auto; lia.
    + rewrite bool_decide_eq_false_2 by done. assert (i = k) by lia. subst.
      rewrite decide_True by lia. done.
Qed.

Lemma addObj_filled sl k n obj :
  filled sl k n -> k < n ->
  exists sl', addObj hl sl obj = (sl', slotAddr hl sl k, true)
    /\ filled sl' (S k) n /\ addr sl' = addr sl.
Proof.
  intros Hf Hk. pose proof Hf as [Hn Hbits]. unfold addObj.
  rewrite (nextClear_filled sl k n Hf) by lia. rewrite Hn.
  rewrite decide_True by lia.
  eexists. split; [reflexivity|]. split; [|reflexivity].
  split; [reflexivity|]. cbn [slab_bits]. rewrite Hbits.
  rewrite insert_app_r_alt by (rewrite length_replicate; lia).
  rewrite length_replicate, Nat.sub_diag.
  destruct (n - k) as [|d] eqn:Hd; [lia|]. cbn [replicate]. cbn [insert list_insert].
  replace (n - S k) with d by lia.
  change (true :: replicate k true) with (replicate (S k) true).
  rewrite replicate_S_end, <- app_assoc. reflexivity.
Qed.

Lemma addObj_full sl n obj : filled sl n n -> rejects hl sl obj.
Proof.
  intros Hf. pose proof Hf as [Hn _]. unfold rejects, addObj.
  rewrite (nextClear_filled sl n n Hf) by lia. rewrite Hn.
  rewrite decide_False by lia. done.
Qed.

Lemma addAll_app s xs ys :
  addAll hl s (xs ++ ys) =
    (fst (addAll hl (fst (addAll hl s xs)) ys),
     snd (addAll hl s xs) ++ snd (addAll hl (fst (addAll hl s xs)) ys)).
Proof.
  revert s. induction xs as [|[obj m] xs IH]; intros s; simpl.
  - by destruct (addAll hl s ys).
  - destruct (add hl s obj m) as [s' r]. rewrite IH.
    destruct (addAll hl s' xs) as [s'' rs]. cbn [fst snd].
    by destruct (addAll hl s'' ys).
Qed.

(** Adding into a pool whose only slab has room: every call lands in that
    slab and reports no new slab. *)
Lemma addAll_fill n calls : forall s sl k,
  slabs s = [sl] -> filled sl k n -> k + length calls <= n ->
  exists sl',
    slabs (fst (addAll hl s calls)) = [sl']
    /\ objSize (fst (addAll hl s calls)) = objSize s
    /\ objsPerSlab (fst (addAll hl s calls)) = objsPerSlab s
    /\ filled sl' (k + length calls) n
    /\ length (snd (addAll hl s calls)) = length calls
    /\ Forall (fun r => snd (fst r) = 0%Z /\ snd r = None) (snd (addAll hl s calls)).
Proof.
  induction calls as [|[obj m] calls IH]; intros s sl k Hl Hf Hlen.
  - exists sl. simpl. rewrite Nat.add_0_r. split_and!; auto.
  - simpl in Hlen.
    destruct (addObj_filled sl k n obj Hf ltac:(lia)) as (sl1 & Hadd & Hf1 & _).
    cbn [addAll].
    rewrite (add_existing hl s obj m [] sl [] sl1 _ Hl (Forall_nil_2 _) Hadd).
    destruct (IH (withSlabs s ([] ++ [sl1])) sl1 (S k) eq_refl Hf1 ltac:(lia))
      as (sl' & H1 & H2 & H3 & H4 & H5 & H6).
    destruct (addAll hl (withSlabs s ([] ++ [sl1])) calls) as [s'' rs].
    cbn [fst snd] in *. exists sl'.
    replace (k + length ((obj, m) :: calls)) with (S k + length calls) by (simpl; lia).
    split_and!; auto. simpl. by rewrite H5.
Qed.

End Capacity.

Section CapacityRun.
Variable hl : nat -> nat.

(** A pool without room (no slab, or one full slab) maps a new slab. *)
Lemma add_into_new_slab s obj base n :
  objsPerSlab s = n -> 0 < n ->
  Forall (fun x => rejects hl x obj) (slabs s) ->
  exists ns' a,
    add hl s obj (MmapOk base) =
      (withSlabs s
         (take (sortSearch (length (slabs s)) (fun i => (addrAt (slabs s) i <? base)%Z))
               (slabs s)
          ++ ns' :: drop (sortSearch (length (slabs s))
                            (fun i => (addrAt (slabs s) i <? base)%Z)) (slabs s)),
       (a, base, None))
    /\ filled ns' 1 n.
Proof.
  intros Hn Hpos Hall.
  destruct (newSlab_ok (objSize s) (objsPerSlab s) base) as (ns & Hns & Hb & _ & Hf).
  rewrite Hn in Hf.
  destruct (addObj_filled hl ns 0 n obj Hf Hpos) as (ns' & Hadd & Hf' & _).
  exists ns', (slotAddr hl ns 0).
  rewrite (add_new hl s obj base ns Hall Hns), Hadd. cbn [fst snd]. auto.
Qed.

(** C7: from the empty pool of capacity [C >= 1] per slab, [C + 1] calls of
    [add] that each find the mapping capability ready to map at a nonzero
    address all succeed; the first and the last answer a nonzero slab
    address (a slab was created), the calls in between answer 0. *)
Theorem capacity_adds_before_new_slab (C size : nat)
    (calls : list (list byte * mmapOutcome)) :
  0 < C -> length calls = S C ->
  (forall i obj m, calls !! i = Some (obj, m) ->
     exists b, m = MmapOk b /\ b <> 0%Z) ->
  let rs := snd (addAll hl (NewSlabPool size C) calls) in
  length rs = S C
  /\ forall i r, rs !! i = Some r ->
       snd r = None
       /\ (i = 0 \/ i = C -> snd (fst r) <> 0%Z)
       /\ (0 < i < C -> snd (fst r) = 0%Z).
Proof.
  intros HC Hlen Hmm.
  destruct calls as [|[obj0 m0] rest]; [discriminate|].
  assert (Hrest : exists mid objC mC, rest = mid ++ [(objC, mC)]).
  { destruct rest as [|c rest] using rev_ind; [simpl in Hlen; lia|].
    destruct c as [objC mC]. eauto. }
  destruct Hrest as (mid & objC & mC & ->).
  assert (Hmid : length mid = C - 1).
  { simpl in Hlen. rewrite length_app in Hlen. simpl in Hlen. lia. }
  destruct (Hmm 0 obj0 m0 eq_refl) as (b0 & -> & Hb0).
  destruct (Hmm C objC mC) as (bC & -> & HbC).
  { replace C with (S (length mid)) by lia.
    rewrite lookup_cons_ne_0 by lia. cbn [pred].
    rewrite lookup_app_r by lia. by rewrite Nat.sub_diag. }
  (* the first call *)
  destruct (add_into_new_slab (NewSlabPool size C) obj0 b0 C eq_refl HC (Forall_nil_2 _))
    as (sl1 & a0 & Hadd0 & Hf1).
  change (slabs (NewSlabPool size C)) with (@nil slab) in Hadd0.
  change (sortSearch (length []) _) with 0 in Hadd0. cbn [take drop app] in Hadd0.
  (* the calls that fill the slab *)
  set (s1 := withSlabs (NewSlabPool size C) [sl1]) in *.
  destruct (addAll_fill hl C mid s1 sl1 1 eq_refl Hf1 ltac:(lia))
    as (slC & Hl2 & _ & Hn2 & HfC & Hlenmid & Hres).
  replace (1 + length mid) with C in HfC by lia.
  set (s2 := fst (addAll hl s1 mid)) in *.
  (* the call that finds it full *)
  assert (Hfull : Forall (fun x => rejects hl x objC) (slabs s2)).
  { rewrite Hl2. constructor; [|constructor]. by apply (addObj_full hl slC C). }
  destruct (add_into_new_slab s2 objC bC C Hn2 HC Hfull) as (sl2 & aC & HaddC & _).
  cbv zeta. cbn [addAll]. rewrite Hadd0.
  rewrite addAll_app. fold s1. fold s2. cbn [addAll]. rewrite HaddC. cbn [fst snd].
  unfold SlabAddr, ObjAddr in *.
  split.
  - cbn [length]. rewrite length_app, Hlenmid. simpl. lia.
  - intros i r Hr. destruct i as [|i]; cbn [lookup list_lookup] in Hr.
    + inversion Hr; subst r. cbn [fst snd]. split_and!; auto. lia.
    + apply lookup_app_Some in Hr as [Hr|[Hge Hr]].
      * apply lookup_lt_Some in Hr as Hlt. rewrite Hlenmid in Hlt.
        rewrite Forall_lookup in Hres. destruct (Hres i r Hr) as [H0 Hnone].
        split_and!; auto. intros [?|?]; lia.
      * rewrite Hlenmid in Hge, Hr.
        destruct (i - length mid) as [|d] eqn:Hd; simpl in Hr; [|by destruct d].
        inversion Hr; subst r. cbn [fst snd]. split_and!; auto. lia.
Qed.

End CapacityRun.

Lemma bytesEqb_eq a b : bytesEqb a b = true <-> a = b.
Proof.
  revert b. induction a as [|x a IH]; intros [|y b]; simpl; split; try done.
  - intros H. apply andb_prop in H as [Hxy Hab].
    apply Byte.byte_dec_bl in Hxy. apply IH in Hab. congruence.
  - intros H. inversion H; subst. apply andb_true_intro. split.
    + by apply Byte.byte_dec_lb.
    + by apply IH.
Qed.

Lemma sameBytes_spec n : forall a b j,
  length a = j + n -> length b = j + n ->
  sameBytes a b j n = Ret (bytesEqb (drop j a) (drop j b)).
Proof.
  induction n as [|n IH]; intros a b j Ha Hb.
  - simpl. rewrite !drop_ge by lia. reflexivity.
  - destruct (lookup_lt_is_Some_2 a j ltac:(lia)) as [x Hx].
    destruct (lookup_lt_is_Some_2 b j ltac:(lia)) as [y Hy].
    cbn [sameBytes]. rewrite Hx, Hy.
    rewrite (drop_S a x j Hx), (drop_S b y j Hy). cbn [bytesEqb].
    destruct (Byte.eqb x y); cbn [negb andb]; [|reflexivity].
    apply IH; lia.
Qed.

Lemma holdsb_holds sl i bytes : holdsb sl i bytes = true <-> holds sl i bytes.
Proof.
  unfold holdsb, holds. rewrite andb_true_iff, bytesEqb_eq. reflexivity.
Qed.

Lemma getObjByIdx_length s sl i :
  wfSlab s sl -> i < objsPerSlab s -> length (getObjByIdx sl i) = objSize s.
Proof.
  intros (Hsz & _ & _ & Hdata) Hi. unfold getObjByIdx.
  rewrite length_take, length_drop, Hdata, Hsz. nia.
Qed.

Lemma slotMatches_none sl bytes n : forall i,
  (forall j, i <= j -> j < i + n -> ~ holds sl j bytes) ->
  slotMatches sl bytes i n = [].
Proof.
  induction n as [|n IH]; intros i Hnone; [done|]. cbn [slotMatches].
  destruct (holdsb sl i bytes) eqn:Hh.
  - apply holdsb_holds in Hh. exfalso. apply (Hnone i); auto; lia.
  - apply IH. intros j Hj1 Hj2. apply Hnone; lia.
Qed.

Lemma slotMatches_first sl bytes n : forall i j,
  i <= j -> j < i + n -> holds sl j bytes ->
  (forall j', i <= j' -> j' < j -> ~ holds sl j' bytes) ->
  exists tl, slotMatches sl bytes i n = j :: tl.
Proof.
  induction n as [|n IH]; intros i j Hij Hjn Hj Hbefore; [lia|].
  cbn [slotMatches]. destruct (holdsb sl i bytes) eqn:Hh.
  - apply holdsb_holds in Hh. destruct (decide (i = j)) as [->|Hne]; [eauto|].
    exfalso. apply (Hbefore i); auto; lia.
  - destruct (decide (i = j)) as [->|Hne].
    + apply holdsb_holds in Hj. congruence.
    + apply IH; auto; try lia. intros j' H1 H2. apply Hbefore; lia.
Qed.

Section Search.
Variable hl : nat -> nat.

Lemma searchSlots_spec s sl bytes n : forall i,
  wfSlab s sl -> 0 < objSize s -> length bytes = objSize s ->
  i + n <= objsPerSlab s ->
  searchSlots hl s sl bytes i n
  = Ret (slotAddr hl sl <$> head (slotMatches sl bytes i n)).
Proof.
  induction n as [|n IH]; intros i Hwf Hpos Hlen Hin; [done|].
  cbn [searchSlots slotMatches]. unfold holdsb.
  destruct (bitTest sl i); cbn [andb]; [|apply IH; auto; lia].
  pose proof (getObjByIdx_length s sl i Hwf ltac:(lia)) as Hobj.
  rewrite (sameBytes_spec (objSize s) (getObjByIdx sl i) bytes 0) by (simpl; lia).
  rewrite !drop_0. cbn [obind].
  destruct (bytesEqb (getObjByIdx sl i) bytes).
  - destruct (getObjByIdx sl i) as [|x obj]; [simpl in Hobj; lia|]. reflexivity.
  - apply IH; auto; lia.
Qed.

Lemma poolMatches_cons s sl l bytes :
  poolMatches hl s (sl :: l) bytes
  = (slotAddr hl sl <$> slotMatches sl bytes 0 (objsPerSlab s))
    ++ poolMatches hl s l bytes.
Proof. reflexivity. Qed.

Lemma searchSlabs_spec s bytes l :
  Forall (wfSlab s) l -> 0 < objSize s -> length bytes = objSize s ->
  searchSlabs hl s l bytes
  = Ret (match poolMatches hl s l bytes with
         | a :: _ => (a, true)
         | [] => (0%Z, false)
         end).
Proof.
  intros Hwf Hpos Hlen. induction Hwf as [|sl l Hsl _ IH]; [done|].
  cbn [searchSlabs]. rewrite (searchSlots_spec s sl bytes _ 0 Hsl Hpos Hlen) by lia.
  rewrite poolMatches_cons. cbn [obind].
  destruct (slotMatches sl bytes 0 (objsPerSlab s)) as [|j tl]; [exact IH|reflexivity].
Qed.

Lemma search_spec s bytes :
  wfPool s -> length bytes = objSize s ->
  search hl s bytes
  = Ret (match poolMatches hl s (slabs s) bytes with
         | a :: _ => (a, true)
         | [] => (0%Z, false)
         end).
Proof.
  intros [Hpos Hwf] Hlen. unfold search.
  rewrite (proj2 (Nat.eqb_eq _ _) Hlen). cbn [negb].
  by apply searchSlabs_spec.
Qed.

Lemma poolMatches_none s l bytes :
  (forall k sl i, l !! k = Some sl -> i < objsPerSlab s -> ~ holds sl i bytes) ->
  poolMatches hl s l bytes = [].
Proof.
  induction l as [|sl l IH]; intros Hnone; [done|].
  rewrite poolMatches_cons, IH.
  - rewrite slotMatches_none; [done|]. intros j _ Hj. apply (Hnone 0 sl j); auto.
  - intros k sl' i Hk. apply (Hnone (S k) sl' i Hk).
Qed.

Lemma poolMatches_first s bytes : forall l k sl i,
  l !! k = Some sl -> i < objsPerSlab s -> holds sl i bytes ->
  (forall k' sl' i', l !! k' = Some sl' -> i' < objsPerSlab s ->
     k' < k \/ (k' = k /\ i' < i) -> ~ holds sl' i' bytes) ->
  exists tl, poolMatches hl s l bytes = slotAddr hl sl i :: tl.
Proof.
  induction l as [|x l IH]; intros k sl i Hk Hi Hholds Hbefore; [done|].
  rewrite poolMatches_cons. destruct k as [|k]; simpl in Hk.
  - inversion Hk; subst x.
    destruct (slotMatches_first sl bytes (objsPerSlab s) 0 i) as [tl Htl]; auto; try lia.
    { intros j' _ Hj'. apply (Hbefore 0 sl j'); auto. lia. }
    rewrite Htl. simpl. eauto.
  - rewrite slotMatches_none.
    + simpl. apply (IH k sl i); auto.
      intros k' sl' i' Hk' Hi' Hlt. apply (Hbefore (S k') sl' i'); auto. lia.
    + intros j _ Hj. apply (Hbefore 0 x j); auto. lia.
Qed.

(** C4: [search] answers [(0, false)] on bytes of another length than the
    pool's object size, whatever the slabs hold.  On bytes of that length
    it answers the address of the first occupied slot that holds exactly
    these bytes, slabs taken in sequence order and the slots of a slab in
    ascending order, with [true]; if no occupied slot holds them it answers
    [(0, false)]. *)
Theorem search_first_occupied_match (s : slabPool) (bytes : list byte) :
  (length bytes <> objSize s -> search hl s bytes = Ret (0%Z, false))
  /\ (wfPool s -> length bytes = objSize s ->
      (forall k sl i,
         slabs s !! k = Some sl -> i < objsPerSlab s -> holds sl i bytes ->
         (forall k' sl' i', slabs s !! k' = Some sl' -> i' < objsPerSlab s ->
            k' < k \/ (k' = k /\ i' < i) -> ~ holds sl' i' bytes) ->
         search hl s bytes = Ret (slotAddr hl sl i, true))
      /\ ((forall k sl i, slabs s !! k = Some sl -> i < objsPerSlab s ->
             ~ holds sl i bytes) ->
          search hl s bytes = Ret (0%Z, false))).
Proof.
  split.
  - intros Hne. unfold search.
    by rewrite (proj2 (Nat.eqb_neq _ _) Hne).
  - intros Hwf Hlen. rewrite (search_spec s bytes Hwf Hlen). split.
    + intros k sl i Hk Hi Hholds Hbefore.
      destruct (poolMatches_first s bytes (slabs s) k sl i Hk Hi Hholds Hbefore)
        as [tl ->]. reflexivity.
    + intros Hnone. by rewrite (poolMatches_none s (slabs s) bytes Hnone).
Qed.

End Search.

(** ** The pools the statements assume are the pools the code builds *)

Lemma length_goCopy {A} (dst src : list A) : length (goCopy dst src) = length dst.
Proof. unfold goCopy. rewrite length_app, length_take, length_drop. lia. Qed.

Lemma nextClear_bound sl n : forall i j,
  nextClear sl i n = Some j -> i <= j /\ j < i + n.
Proof.
  induction n as [|n IH]; intros i j H; [discriminate|]. cbn [nextClear] in H.
  destruct (bitTest sl i).
  - apply IH in H. lia.
  - inversion H. lia.
Qed.

Lemma wfSlab_withSlabs s l sl : wfSlab (withSlabs s l) sl <-> wfSlab s sl.
Proof. reflexivity. Qed.

Lemma wfSlab_newSlab s base ns :
  newSlab (objSize s) (objsPerSlab s) (MmapOk base) = inl ns -> wfSlab s ns.
Proof.
  intros H. inversion H; subst ns. unfold wfSlab. cbn.
  by rewrite !length_replicate.
Qed.

Section Invariants.
Variable hl : nat -> nat.

Lemma wfSlab_addObj s sl obj :
  wfSlab s sl -> wfSlab s (fst (fst (addObj hl sl obj))).
Proof.
  intros Hwf. pose proof Hwf as (Hsz & Hn & Hbits & Hdata). unfold addObj.
  destruct (nextClear sl 0 (slab_objsPerSlab sl)) as [i|] eqn:Hi; [|exact Hwf].
  apply nextClear_bound in Hi as [_ Hi]. rewrite Hn in Hi. cbn [fst].
  unfold wfSlab. cbn [slab_objSize slab_objsPerSlab slab_bits slab_data].
  split_and!; auto.
  - by rewrite length_insert.
  - rewrite !length_app, length_goCopy, (getObjByIdx_length s sl i Hwf) by lia.
    rewrite length_take, length_drop, Hdata, Hsz. nia.
Qed.

Lemma wfSlabs_addSlab s m :
  Forall (wfSlab s) (slabs s) -> Forall (wfSlab s) (slabs (fst (addSlab s m))).
Proof.
  intros Hwf. destruct m as [base|e]; [|exact Hwf].
  destruct (newSlab_ok (objSize s) (objsPerSlab s) base) as (ns & Hns & _).
  destruct (addSlab_ok s base ns Hns) as (k & _ & _ & ->). cbn [fst slabs withSlabs].
  apply Forall_app. split; [by apply Forall_take|].
  constructor; [by eapply wfSlab_newSlab|by apply Forall_drop].
Qed.

Lemma wfPool_NewSlabPool size n : 0 < size -> wfPool (NewSlabPool size n).
Proof. intros Hpos. split; [exact Hpos|constructor]. Qed.

Lemma wfPool_add s obj m : wfPool s -> wfPool (fst (add hl s obj m)).
Proof.
  intros [Hpos Hwf].
  destruct (addLoop_cases hl (slabs s) obj)
    as [Hall|(pre & sl & post & sl' & a & Hl & Hpre & Hsl)].
  - destruct m as [base|e]; [|by rewrite (add_mmap_fail hl s obj e Hall)].
    destruct (newSlab_ok (objSize s) (objsPerSlab s) base) as (ns & Hns & _).
    rewrite (add_new hl s obj base ns Hall Hns). cbn [fst].
    split; [exact Hpos|]. cbn [slabs withSlabs].
    apply Forall_app. split; [by apply Forall_take|].
    constructor; [|by apply Forall_drop].
    apply wfSlab_addObj. by eapply wfSlab_newSlab.
  - rewrite (add_existing hl s obj m pre sl post sl' a Hl Hpre Hsl). cbn [fst].
    split; [exact Hpos|]. cbn [slabs withSlabs].
    rewrite Hl in Hwf. apply Forall_app in Hwf as [Hwfpre Hwfpost].
    apply Forall_cons in Hwfpost as [Hwfsl Hwfpost].
    apply Forall_app. split; [exact Hwfpre|]. constructor; [|exact Hwfpost].
    pose proof (wfSlab_addObj s sl obj Hwfsl) as H. by rewrite Hsl in H.
Qed.

Lemma wfPool_deleteSlab munmap s a s' err :
  wfPool s -> deleteSlab hl munmap s a = Ret (s', err) -> wfPool s'.
Proof.
  intros [Hpos Hwf] Hdel.
  destruct (slabs s !! findSlabByAddr s a) as [cur|] eqn:Hcur.
  - rewrite (deleteSlab_in_range hl munmap s a cur Hcur) in Hdel.
    inversion Hdel; subst. split; [exact Hpos|]. cbn [slabs withSlabs].
    by apply Forall_delete.
  - unfold deleteSlab in Hdel. rewrite Hcur in Hdel. discriminate.
Qed.

End Invariants.

(** ** searchBatched *)

(** Whatever the schedule, the collector receives what the goroutines
    send, each result once. *)
Lemma mergeBy_perm {A} (sched : list nat) : forall qs : list (list A),
  mergeBy sched qs ≡ₚ concat qs.
Proof.
  induction sched as [|i sched IH]; intros qs; [done|]. cbn [mergeBy].
  destruct (qs !! i) as [[|x q]|] eqn:Hq; try apply IH.
  rewrite IH.
  rewrite <- (take_drop_middle qs i (x :: q) Hq) at 2.
  rewrite insert_take_drop by (eapply lookup_lt_Some; eauto).
  rewrite !concat_app, !concat_cons. cbn [app].
  by rewrite <- Permutation_middle.
Qed.

Lemma concat_all_nil {A} (qs : list (list A)) :
  Forall (fun q => q = []) qs -> concat qs = [].
Proof. induction 1 as [|q qs -> _ IH]; [done|]. exact IH. Qed.

(** Every interleaving is the merge of some schedule. *)
Lemma mergeBy_complete {A} (qs : list (list A)) (m : list A) :
  interleaving qs m -> exists sched, mergeBy sched qs = m.
Proof.
  induction 1 as [qs Hnil|qs i x q m Hq _ [sched IH]].
  - exists []. by apply concat_all_nil.
  - exists (i :: sched). cbn [mergeBy]. by rewrite Hq, IH.
Qed.

Lemma interleaving_concat {A} (qs : list (list A)) : forall n,
  interleaving (replicate n [] ++ qs) (concat qs).
Proof.
  induction qs as [|q qs IH]; intros n.
  - constructor. rewrite app_nil_r. by apply Forall_replicate.
  - induction q as [|x q IHq].
    + specialize (IH (S n)). rewrite replicate_S_end, <- app_assoc in IH. exact IH.
    + apply (interleaving_recv _ n x q).
      * rewrite lookup_app_r by (rewrite length_replicate; lia).
        by rewrite length_replicate, Nat.sub_diag.
      * rewrite insert_app_r_alt by (rewrite length_replicate; lia).
        rewrite length_replicate, Nat.sub_diag. exact IHq.
Qed.

(** And every merge is an interleaving. *)
Lemma mergeBy_interleaving {A} (sched : list nat) : forall qs : list (list A),
  interleaving qs (mergeBy sched qs).
Proof.
  induction sched as [|i sched IH]; intros qs; cbn [mergeBy].
  - apply (interleaving_concat qs 0).
  - destruct (qs !! i) as [[|x q]|] eqn:Hq; try apply IH.
    eapply interleaving_recv; [exact Hq|apply IH].
Qed.

Lemma collect_single (received : list result) : forall z,
  Forall (fun r => fst r = 0) received ->
  collect received [z] = [default z (last (snd <$> received))].
Proof.
  induction received as [|[k a] received IH]; intros z Hall; [done|].
  apply Forall_cons in Hall as [Hk Hall]. simpl in Hk. subst k.
  unfold collect in *. cbn [fold_left fst snd insert list_insert].
  rewrite IH by done. rewrite fmap_cons, last_cons. cbn [snd].
  by destruct (last (snd <$> received)).
Qed.

Section Batched.
Variable hl : nat -> nat.

Lemma slabTask_single s sl t n : forall i,
  wfSlab s sl -> length t = objSize s -> i + n <= objsPerSlab s ->
  slabTask hl s [t] sl i n
  = Ret ((fun j => (0, slotAddr hl sl j)) <$> slotMatches sl t i n).
Proof.
  induction n as [|n IH]; intros i Hwf Hlen Hin; [done|].
  cbn [slabTask slotMatches]. rewrite IH by (auto; lia). unfold holdsb.
  destruct (bitTest sl i); cbn [andb obind]; [|done].
  pose proof (getObjByIdx_length s sl i Hwf ltac:(lia)) as Hobj.
  cbn [matchTargets].
  rewrite (sameBytes_spec (objSize s) (getObjByIdx sl i) t 0) by (simpl; lia).
  rewrite !drop_0. cbn [obind].
  by destruct (bytesEqb (getObjByIdx sl i) t).
Qed.

Lemma slabTasks_single s t l :
  Forall (wfSlab s) l -> length t = objSize s ->
  exists qs, slabTasks hl s [t] l = Ret qs
    /\ concat qs = (fun a => (0, a)) <$> poolMatches hl s l t.
Proof.
  intros Hwf Hlen. induction Hwf as [|sl l Hsl _ (qs & Hqs & Hcat)].
  - by exists [].
  - cbn [slabTasks]. rewrite (slabTask_single s sl t _ 0 Hsl Hlen) by lia.
    rewrite Hqs. cbn [obind]. eexists. split; [reflexivity|].
    rewrite concat_cons, Hcat, poolMatches_cons, fmap_app, <- list_fmap_compose.
    reflexivity.
Qed.

Lemma slotAddr_pos sl i : (0 < addr sl)%Z -> (0 < slotAddr hl sl i)%Z.
Proof. unfold slotAddr, addr. lia. Qed.

Lemma poolMatches_pos s l t a :
  Forall (fun sl => (0 < addr sl)%Z) l -> a ∈ poolMatches hl s l t -> (0 < a)%Z.
Proof.
  intros Hpos Ha. unfold poolMatches in Ha.
  apply list_elem_of_bind in Ha as (sl & Ha & Hsl).
  apply list_elem_of_fmap in Ha as (j & -> & _).
  apply slotAddr_pos. rewrite Forall_forall in Hpos. by apply Hpos.
Qed.

(** On a target of the pool's object size [search] and [searchBatched]
    agree: the entry of the target is nonzero exactly when [search] finds
    it, and when a single slot holds the target both answer its address. *)
Lemma search_searchBatched_agree s t sched :
  wfPool s -> Forall (fun sl => (0 < addr sl)%Z) (slabs s) ->
  length t = objSize s ->
  exists a found r,
    search hl s t = Ret (a, found)
    /\ searchBatched hl s [t] sched = Ret [r]
    /\ (r <> 0%Z <-> found = true)
    /\ (forall x, poolMatches hl s (slabs s) t = [x] -> a = x /\ r = x).
Proof.
  intros Hwf Hpos Hlen. pose proof Hwf as [_ Hslabs].
  destruct (slabTasks_single s t (slabs s) Hslabs Hlen) as (qs & Hqs & Hcat).
  pose proof (mergeBy_perm sched qs) as Hperm. rewrite Hcat in Hperm.
  set (ms := poolMatches hl s (slabs s) t) in *.
  set (received := mergeBy sched qs) in *.
  assert (Hidx : Forall (fun r => fst r = 0) received).
  { rewrite Forall_forall. intros r Hr. rewrite Hperm in Hr.
    by apply list_elem_of_fmap in Hr as (a & -> & _). }
  assert (Hsnd : snd <$> received ≡ₚ ms).
  { rewrite Hperm, <- list_fmap_compose. by rewrite list_fmap_id. }
  unfold searchBatched. rewrite Hqs. cbn [obind].
  change (replicate (length [t]) 0%Z) with (@cons ObjAddr 0%Z (@nil ObjAddr)).
  change (mergeBy sched qs) with received.
  rewrite (collect_single received 0%Z Hidx).
  rewrite (search_spec hl s t Hwf Hlen). fold ms.
  destruct ms as [|x ms'] eqn:Hms.
  - apply Permutation_nil_r in Hsnd. rewrite Hsnd.
    exists 0%Z, false, 0%Z. split_and!; try done.
  - destruct (last (snd <$> received)) as [r|] eqn:Hlast.
    + exists x, true, r. split_and!; try done.
      * split; [done|]. intros _.
        assert (Hin : r ∈ snd <$> received).
        { apply last_Some in Hlast as [pre ->].
          apply elem_of_app. right. apply list_elem_of_singleton. reflexivity. }
        rewrite Hsnd in Hin.
        assert (0 < r)%Z; [|lia].
        eapply poolMatches_pos; [exact Hpos|]. unfold ms in Hms. rewrite Hms. exact Hin.
      * intros y Hy. inversion Hy; subst y ms'.
        apply Permutation_singleton_r in Hsnd. rewrite Hsnd in Hlast.
        by inversion Hlast.
    + apply last_None in Hlast. rewrite Hlast in Hsnd.
      by apply Permutation_nil_l in Hsnd.
Qed.

End Batched.

(** ** searchBatched on targets of another length *)

Lemma mergeBy_single {A} (sched : list nat) (x : A) : mergeBy sched [[x]] = [x].
Proof.
  apply Permutation_singleton_r. rewrite mergeBy_perm. reflexivity.
Qed.

(** C5: [searchBatched] does not compare lengths.  On the pool that holds
    "AA" in its first slot, the three-byte target "AA\000" is reported at
    the address of that slot, and the one-byte target "A" makes the
    goroutine of the slab index the target out of range; this holds for
    every schedule. *)
Theorem searchBatched_size_mismatch_not_skipped (sched : list nat) :
  searchBatched hdr16 poolA [[x41; x41; x00]] sched = Ret [1016%Z]
  /\ searchBatched hdr16 poolA [[x41]] sched = Panic.
Proof.
  split; [|reflexivity].
  unfold searchBatched.
  change (slabTasks hdr16 poolA [[x41; x41; x00]] (slabs poolA))
    with (Ret [[(0, 1016%Z)]] : outcome (list (list result))).
  cbn [obind]. rewrite mergeBy_single. reflexivity.
Qed.

(** C6: on the pool that holds "AA" and "BB", [search] does not find the
    three-byte target "BB\000", while [searchBatched] reports it at the
    address of the slot that holds "BB", for every schedule. *)
Theorem search_searchBatched_disagree_on_size_mismatch (sched : list nat) :
  search hdr16 poolAB [x42; x42; x00] = Ret (0%Z, false)
  /\ searchBatched hdr16 poolAB [[x42; x42; x00]] sched = Ret [1018%Z].
Proof.
  split; [reflexivity|].
  unfold searchBatched.
  change (slabTasks hdr16 poolAB [[x42; x42; x00]] (slabs poolAB))
    with (Ret [[(0, 1018%Z)]] : outcome (list (list result))).
  cbn [obind]. rewrite mergeBy_single. reflexivity.
Qed.

(** C8 as stated fails: 5000 lies in the region of no slab of
    [poolABC] (the slabs span 1000..1020 and 3000..3020), yet the lookup
    answers the index of the slab at 3000 and [deleteSlab] removes that
    slab and returns without error. *)
Lemma deleteSlab_unowned_above_removes_a_slab :
  (forall sl, sl ∈ slabs poolABC -> ~ owns hdr16 sl 5000%Z)
  /\ findSlabByAddr poolABC 5000%Z = 0
  /\ findSlabByAddr poolABC 5000%Z <> length (slabs poolABC)
  /\ deleteSlab hdr16 munmapOk poolABC 5000%Z
     = Ret (mkPool [slabAB] 2 2, None).
Proof.
  split_and!; try reflexivity; [|discriminate].
  intros sl Hin [_ Hlt].
  apply elem_of_cons in Hin as [->|Hin];
    [|apply list_elem_of_singleton in Hin as ->]; cbn in Hlt; lia.
Qed.

(** ** The statements at work on the example pools *)

Lemma sortedDesc_preserved_witness :
  sortedDesc (slabs poolABC)
  /\ sortedDesc (slabs (fst (add hdr16 poolABC objC (MmapOk 2000))))
  /\ sortedDesc (slabs (fst (addSlab poolABC (MmapOk 2000))))
  /\ sortedDesc (slabs (mkPool [slabC] 2 2)).
Proof.
  assert (Hs : sortedDesc (slabs poolABC)) by (apply descendingb_true; reflexivity).
  assert (Hfresh : freshBase (slabs poolABC) (MmapOk 2000)).
  { intros b Hb sl Hin. inversion Hb; subst b. each_slab Hin; cbn; lia. }
  destruct (sortedDesc_preserved hdr16 poolABC Hs) as (Hadd & HaddSlab & Hdel).
  split; [exact Hs|]. split; [apply Hadd, Hfresh|]. split; [apply HaddSlab, Hfresh|].
  apply (Hdel munmapOk 1000%Z (mkPool [slabC] 2 2) None). reflexivity.
Defined.

Lemma findSlabByAddr_greatest_le_witness :
  sortedDesc (slabs poolABC)
  /\ (exists best, slabs poolABC !! findSlabByAddr poolABC 2999%Z = Some best
        /\ (addr best <= 2999)%Z
        /\ forall sl', sl' ∈ slabs poolABC -> (addr sl' <= 2999)%Z ->
             (addr sl' <= addr best)%Z)
  /\ findSlabByAddr poolABC 500%Z = length (slabs poolABC).
Proof.
  assert (Hs : sortedDesc (slabs poolABC)) by (apply descendingb_true; reflexivity).
  split; [exact Hs|]. split.
  - destruct (findSlabByAddr_greatest_le poolABC 2999%Z Hs) as (Hfound & _ & _).
    apply (Hfound slabAB).
    + apply elem_of_cons. right. apply elem_of_cons. left. reflexivity.
    + cbn. lia.
  - destruct (findSlabByAddr_greatest_le poolABC 500%Z Hs) as (_ & Hnone & _).
    apply Hnone.
    intros sl Hin. each_slab Hin; cbn; lia.
Defined.

Lemma add_first_fit_else_new_slab_witness :
  add hdr16 poolABC objB (MmapFail 12)
  = (mkPool [mkSlab 3000 2 2 [true; true] [x43; x43; x42; x42]; slabAB] 2 2,
     (3018%Z, 0%Z, None))
  /\ exists ns k,
       newSlab 2 2 (MmapOk 3000) = inl ns
       /\ k <= 1
       /\ add hdr16 poolAB objC (MmapOk 3000)
          = (mkPool (take k [slabAB] ++ slabC :: drop k [slabAB]) 2 2,
             (3016%Z, 3000%Z, None)).
Proof.
  split.
  - apply (proj1 (add_first_fit_else_new_slab hdr16 poolABC objB)
             (MmapFail 12) [] slabC [slabAB]
             (mkSlab 3000 2 2 [true; true] [x43; x43; x42; x42]) 3018%Z).
    + reflexivity.
    + constructor.
    + reflexivity.
  - assert (Hfull : Forall (fun x => rejects hdr16 x objC) (slabs poolAB)).
    { constructor; [reflexivity|constructor]. }
    destruct (proj2 (add_first_fit_else_new_slab hdr16 poolAB objC) Hfull 3000%Z)
      as (ns & k & Hns & Hb & Hk & _ & Hok & _).
    exists ns, k. split; [exact Hns|]. split; [exact Hk|].
    apply Hok. inversion Hns; subst ns. reflexivity.
Defined.

Lemma search_first_occupied_match_witness :
  wfPool poolABC /\ length objB = objSize poolABC
  /\ search hdr16 poolABC objB = Ret (1018%Z, true)
  /\ search hdr16 poolABC [x5a; x5a] = Ret (0%Z, false)
  /\ search hdr16 poolABC [x42] = Ret (0%Z, false).
Proof.
  assert (Hwf : wfPool poolABC).
  { split; [cbn; lia|]. repeat (constructor; [by repeat split|]). constructor. }
  split; [exact Hwf|]. split; [reflexivity|].
  destruct (search_first_occupied_match hdr16 poolABC objB) as [_ Hscan].
  destruct (search_first_occupied_match hdr16 poolABC [x5a; x5a]) as [_ Hscan'].
  destruct (search_first_occupied_match hdr16 poolABC [x42]) as [Hlen _].
  split; [|split].
  - apply (proj1 (Hscan Hwf eq_refl) 1 slabAB 1).
    + reflexivity.
    + cbn. lia.
    + split; reflexivity.
    + intros k' sl' i' Hk' Hi' Hearlier [Hbit Hobj].
      destruct k' as [|[|k']]; cbn in Hk'; inversion Hk'; subst sl';
        destruct i' as [|[|i']]; cbn in Hi'; try lia; discriminate.
  - apply (proj2 (Hscan' Hwf eq_refl)).
    intros k sl i Hk Hi [Hbit Hobj].
    destruct k as [|[|k]]; cbn in Hk; inversion Hk; subst sl;
      destruct i as [|[|i]]; cbn in Hi; try lia; discriminate.
  - apply Hlen. cbn. lia.
Defined.

Lemma capacity_adds_before_new_slab_witness :
  0 < 2 /\ length callsABC = 3
  /\ snd (addAll hdr16 (NewSlabPool 2 2) callsABC)
     = [(1016%Z, 1000%Z, None); (1018%Z, 0%Z, None); (3016%Z, 3000%Z, None)]
  /\ forall i r, snd (addAll hdr16 (NewSlabPool 2 2) callsABC) !! i = Some r ->
       snd r = None
       /\ (i = 0 \/ i = 2 -> snd (fst r) <> 0%Z)
       /\ (0 < i < 2 -> snd (fst r) = 0%Z).
Proof.
  split; [lia|]. split; [reflexivity|]. split; [reflexivity|].
  apply (capacity_adds_before_new_slab hdr16 2 2 callsABC).
  - lia.
  - reflexivity.
  - intros i obj m Hi.
    destruct i as [|[|[|i]]]; cbn in Hi; inversion Hi; subst;
      eexists; (split; [reflexivity|lia]).
Defined.

Lemma deleteSlab_below_all_panics_witness :
  (forall sl, sl ∈ slabs poolABC -> (500 < addr sl)%Z)
  /\ findSlabByAddr poolABC 500%Z = 2
  /\ deleteSlab hdr16 munmapOk poolABC 500%Z = Panic.
Proof.
  assert (Hall : forall sl, sl ∈ slabs poolABC -> (500 < addr sl)%Z).
  { intros sl Hin. each_slab Hin; cbn; lia. }
  split; [exact Hall|].
  exact (deleteSlab_below_all_panics hdr16 munmapOk poolABC 500%Z Hall).
Defined.

Lemma deleteSlab_unlinks_even_on_munmap_error_witness :
  sortedDesc (slabs poolABC) /\ slabAB ∈ slabs poolABC
  /\ exists k,
       slabs poolABC !! k = Some slabAB
       /\ (forall sl, sl ∈ delete k (slabs poolABC) -> addr sl <> 1000%Z)
       /\ deleteSlab hdr16 munmapFails poolABC 1000%Z
          = Ret (mkPool (delete k (slabs poolABC)) 2 2, Some (Errno 22)).
Proof.
  assert (Hs : sortedDesc (slabs poolABC)) by (apply descendingb_true; reflexivity).
  assert (Hin : slabAB ∈ slabs poolABC).
  { apply elem_of_cons. right. apply elem_of_cons. left. reflexivity. }
  split; [exact Hs|]. split; [exact Hin|].
  destruct (deleteSlab_unlinks_even_on_munmap_error hdr16 munmapFails poolABC slabAB Hs Hin)
    as (k & Hk & Hgone & _ & Herr).
  exists k. split; [exact Hk|]. split; [exact Hgone|].
  apply (Herr 22%Z). reflexivity.
Defined.

Lemma add_mmap_failure_leaves_pool_witness :
  Forall (fun x => rejects hdr16 x objC) (slabs poolAB)
  /\ add hdr16 poolAB objC (MmapFail 12) = (poolAB, (0%Z, 0%Z, Some (Errno 12))).
Proof.
  assert (Hfull : Forall (fun x => rejects hdr16 x objC) (slabs poolAB)).
  { constructor; [reflexivity|constructor]. }
  split; [exact Hfull|].
  exact (add_mmap_failure_leaves_pool hdr16 poolAB objC 12%Z Hfull).
Defined.

(** * Further properties of the pool *)

(** ** Lookup, insertion and deletion of slabs *)

Lemma findSlabByAddr_le s a : findSlabByAddr s a <= length (slabs s).
Proof. apply sortSearch_le. Qed.

(** On a sorted pool the slab the lookup lands on, if any, has a base
    address at or below the query, and the slabs before it lie above. *)
Lemma findSlabByAddr_landing s a :
  sortedDesc (slabs s) ->
  (forall sl, slabs s !! findSlabByAddr s a = Some sl -> (addr sl <= a)%Z)
  /\ (forall i sl, i < findSlabByAddr s a -> slabs s !! i = Some sl ->
        (a < addr sl)%Z).
Proof.
  intros Hs. unfold findSlabByAddr.
  destruct (sortSearch_spec _ _ (monotone_le (slabs s) a Hs)) as (Hle & Hlo & Hhi).
  set (r := sortSearch _ _) in *. split.
  - intros sl Hsl. apply lookup_lt_Some in Hsl as Hlt.
    specialize (Hhi r ltac:(lia) Hlt). apply Z.leb_le in Hhi.
    by rewrite (addrAt_lookup _ _ _ Hsl) in Hhi.
  - intros i sl Hi Hsl. specialize (Hlo i Hi). apply Z.leb_gt in Hlo.
    by rewrite (addrAt_lookup _ _ _ Hsl) in Hlo.
Qed.

Lemma addSlab_shape s base :
  exists k ns,
    newSlab (objSize s) (objsPerSlab s) (MmapOk base) = inl ns
    /\ addr ns = base
    /\ k <= length (slabs s)
    /\ k = sortSearch (length (slabs s)) (fun i => (addrAt (slabs s) i <? base)%Z)
    /\ addSlab s (MmapOk base)
       = (withSlabs s (take k (slabs s) ++ ns :: drop k (slabs s)), inl (k, ns)).
Proof.
  destruct (newSlab_ok (objSize s) (objsPerSlab s) base) as (ns & Hns & Hb & _).
  destruct (addSlab_ok s base ns Hns) as (k & Hk & Hkeq & Hadd).
  exists k, ns. auto.
Qed.

Lemma lookup_inserted {A} (l : list A) k x :
  k <= length l -> (take k l ++ x :: drop k l) !! k = Some x.
Proof.
  intros Hk. rewrite lookup_app_r by (rewrite length_take; lia).
  rewrite length_take. by replace (k - k `min` length l) with 0 by lia.
Qed.

Lemma delete_inserted {A} (l : list A) k x :
  k <= length l -> delete k (take k l ++ x :: drop k l) = l.
Proof.
  intros Hk. rewrite delete_take_drop.
  assert (Hlen : length (take k l) = k) by (rewrite length_take; lia).
  rewrite take_app_le, drop_app_ge by lia.
  rewrite Hlen. replace (S k - k) with 1 by lia. cbn [drop].
  rewrite drop_0, take_take. replace (k `min` k) with k by lia. apply take_drop.
Qed.

(** X1: [addSlab] either fails with the errno of the mapping and hands the
    pool back as it was, or maps a slab at the base the mapping answered,
    makes the sequence one longer and puts the slab at the position it
    returns; taking that position out again gives the old sequence, so no
    other slab is lost, doubled or moved past another. *)
Theorem addSlab_inserts_exactly_one (s : slabPool) (m : mmapOutcome) :
  match addSlab s m with
  | (s', inl (k, ns)) =>
      m = MmapOk (addr ns)
      /\ length (slabs s') = S (length (slabs s))
      /\ slabs s' !! k = Some ns
      /\ delete k (slabs s') = slabs s
      /\ objSize s' = objSize s /\ objsPerSlab s' = objsPerSlab s
  | (s', inr err) => exists e, m = MmapFail e /\ err = Errno e /\ s' = s
  end.
Proof.
  destruct m as [base|e].
  - destruct (addSlab_shape s base) as (k & ns & _ & Hb & Hk & _ & ->).
    cbn [slabs withSlabs objSize objsPerSlab]. split_and!; auto.
    + by rewrite Hb.
    + rewrite length_app, length_take. cbn [length]. rewrite length_drop. lia.
    + by apply lookup_inserted.
    + by apply delete_inserted.
  - rewrite addSlab_fail. eauto.
Qed.

Section SlabSequence.
Variable hl : nat -> nat.

Lemma addSlab_sorted_lookup s base s' k ns :
  sortedDesc (slabs s) -> freshBase (slabs s) (MmapOk base) ->
  addSlab s (MmapOk base) = (s', inl (k, ns)) ->
  sortedDesc (slabs s') /\ slabs s' !! k = Some ns /\ addr ns = base
  /\ delete k (slabs s') = slabs s
  /\ withSlabs s' (slabs s) = s.
Proof.
  intros Hs Hfresh Hadd.
  destruct (addSlab_shape s base) as (k' & ns' & _ & Hb & Hk & Hkeq & Hadd').
  rewrite Hadd' in Hadd. injection Hadd as <- <- <-.
  cbn [slabs withSlabs]. split_and!.
  - rewrite Hkeq. apply sortedDesc_insert; [exact Hs|exact Hb|].
    intros sl Hin. by apply (Hfresh base).
  - by apply lookup_inserted.
  - exact Hb.
  - by apply delete_inserted.
  - unfold withSlabs. cbn [objSize objsPerSlab]. by destruct s.
Qed.

(** X2: on a sorted pool, after [addSlab] has mapped a slab at a base
    address new to the pool, [findSlabByAddr] of that base address is the
    position [addSlab] returned. *)
Theorem addSlab_then_findSlabByAddr (s s' : slabPool) (base : Z) (k : nat) (ns : slab) :
  sortedDesc (slabs s) -> freshBase (slabs s) (MmapOk base) ->
  addSlab s (MmapOk base) = (s', inl (k, ns)) ->
  findSlabByAddr s' base = k /\ slabs s' !! k = Some ns.
Proof.
  intros Hs Hfresh Hadd.
  destruct (addSlab_sorted_lookup s base s' k ns Hs Hfresh Hadd)
    as (Hs' & Hk & Hb & _).
  split; [|exact Hk].
  assert (Hin : ns ∈ slabs s') by (apply list_elem_of_lookup; eauto).
  pose proof (findSlabByAddr_base s' ns Hs' Hin) as Hfind. rewrite Hb in Hfind.
  eapply sortedDesc_addr_inj; eauto.
Qed.

(** X3: on a sorted pool, [deleteSlab] of the base address of a slab that
    [addSlab] has just mapped gives back the pool as it was before the
    [addSlab]; the region handed to the unmapping is the new slab's, and
    the error is the unmapping's. *)
Theorem addSlab_then_deleteSlab (munmap : Z -> nat -> option Z)
    (s s' : slabPool) (base : Z) (k : nat) (ns : slab) :
  sortedDesc (slabs s) -> freshBase (slabs s) (MmapOk base) ->
  addSlab s (MmapOk base) = (s', inl (k, ns)) ->
  deleteSlab hl munmap s' base
  = Ret (s, Errno <$> munmap base (getTotalLength hl ns)).
Proof.
  intros Hs Hfresh Hadd.
  destruct (addSlab_sorted_lookup s base s' k ns Hs Hfresh Hadd)
    as (Hs' & Hk & Hb & Hdel & Hback).
  assert (Hin : ns ∈ slabs s') by (apply list_elem_of_lookup; eauto).
  pose proof (findSlabByAddr_base s' ns Hs' Hin) as Hfind. rewrite Hb in Hfind.
  assert (Hidx : findSlabByAddr s' base = k)
    by (eapply sortedDesc_addr_inj; eauto).
  rewrite (deleteSlab_in_range hl munmap s' base ns Hfind).
  by rewrite Hidx, Hdel, Hback, Hb.
Qed.

(** X4: on a sorted pool [deleteSlab] does not ask for a base address: given
    any address at or above the base address of some slab it removes the
    slab with the greatest base address at or below it (the owner of an
    object address, for one) and unmaps that slab's region. *)
Theorem deleteSlab_removes_greatest_le (munmap : Z -> nat -> option Z)
    (s : slabPool) (a : Z) (sl : slab) :
  sortedDesc (slabs s) -> sl ∈ slabs s -> (addr sl <= a)%Z ->
  exists k best,
    slabs s !! k = Some best
    /\ (addr sl <= addr best <= a)%Z
    /\ (forall sl', sl' ∈ slabs s -> (addr sl' <= a)%Z ->
          (addr sl' <= addr best)%Z)
    /\ deleteSlab hl munmap s a
       = Ret (withSlabs s (delete k (slabs s)),
              Errno <$> munmap (addr best) (getTotalLength hl best)).
Proof.
  intros Hs Hin Hle.
  destruct (findSlabByAddr_char s a Hs) as [Hfound _].
  destruct (Hfound sl Hin Hle) as (best & Hbest & Hbesta & Hmax).
  exists (findSlabByAddr s a), best. split_and!; auto.
  by apply deleteSlab_in_range.
Qed.

(** X5: on a sorted pool, once [deleteSlab] has removed the slab at a base
    address, a lookup of that address no longer lands on a slab with that
    address: it answers the length of the sequence or the index of a slab
    with a smaller base address. *)
Theorem deleteSlab_then_findSlabByAddr (munmap : Z -> nat -> option Z)
    (s s' : slabPool) (cur : slab) (err : option error) :
  sortedDesc (slabs s) -> cur ∈ slabs s ->
  deleteSlab hl munmap s (addr cur) = Ret (s', err) ->
  findSlabByAddr s' (addr cur) = length (slabs s')
  \/ exists sl, slabs s' !! findSlabByAddr s' (addr cur) = Some sl
       /\ (addr sl < addr cur)%Z.
Proof.
  intros Hs Hin Hdel.
  pose proof (findSlabByAddr_base s cur Hs Hin) as Hcur.
  rewrite (deleteSlab_in_range hl munmap s (addr cur) cur Hcur) in Hdel.
  inversion Hdel; subst s' err. clear Hdel.
  set (k := findSlabByAddr s (addr cur)) in *.
  set (s' := withSlabs s (delete k (slabs s))).
  assert (Hs' : sortedDesc (slabs s')) by (by apply sortedDesc_delete).
  pose proof (findSlabByAddr_le s' (addr cur)) as Hle.
  destruct (decide (findSlabByAddr s' (addr cur) = length (slabs s'))) as [|Hne];
    [by left|right].
  destruct (lookup_lt_is_Some_2 (slabs s') (findSlabByAddr s' (addr cur)) ltac:(lia))
    as [sl Hsl].
  exists sl. split; [exact Hsl|].
  pose proof (proj1 (findSlabByAddr_landing s' (addr cur) Hs') sl Hsl) as Hbelow.
  assert (addr sl <> addr cur); [|lia].
  intros Heq. cbn [slabs withSlabs s'] in Hsl.
  set (r := findSlabByAddr s' (addr cur)) in *.
  destruct (decide (r < k)).
  - rewrite list_lookup_delete_lt in Hsl by lia.
    pose proof (sortedDesc_addr_inj _ _ _ _ _ Hs Hsl Hcur Heq). lia.
  - rewrite list_lookup_delete_ge in Hsl by lia.
    pose proof (sortedDesc_addr_inj _ _ _ _ _ Hs Hsl Hcur Heq). lia.
Qed.

(** The lookup of an address inside a slab's region. *)
Lemma findSlabByAddr_owns (s : slabPool) (a : Z) (k : nat) (sl : slab) :
  sortedDesc (slabs s) ->
  (forall x y, x ∈ slabs s -> y ∈ slabs s -> owns hl x (addr y) ->
     addr y = addr x) ->
  slabs s !! k = Some sl -> owns hl sl a ->
  findSlabByAddr s a = k.
Proof.
  intros Hs Hapart Hk [Hlo Hhi].
  assert (Hin : sl ∈ slabs s) by (apply list_elem_of_lookup; eauto).
  destruct (findSlabByAddr_char s a Hs) as [Hfound _].
  destruct (Hfound sl Hin Hlo) as (best & Hbest & Hbesta & Hmax).
  specialize (Hmax sl Hin Hlo).
  assert (Hbin : best ∈ slabs s) by (apply list_elem_of_lookup; eauto).
  assert (Heq : addr best = addr sl).
  { apply (Hapart sl best Hin Hbin). split; lia. }
  eapply sortedDesc_addr_inj; eauto.
Qed.

(** X6: on a sorted pool in which no slab's base address lies inside the
    region of another slab, [findSlabByAddr] maps every address inside the
    region of a slab (the address of each of its objects, for one) to the
    index of that slab. *)
Theorem findSlabByAddr_owner (s : slabPool) (a : Z) (k : nat) (sl : slab) :
  sortedDesc (slabs s) ->
  (forall x y, x ∈ slabs s -> y ∈ slabs s -> owns hl x (addr y) ->
     addr y = addr x) ->
  slabs s !! k = Some sl -> owns hl sl a ->
  findSlabByAddr s a = k.
Proof. apply findSlabByAddr_owns. Qed.

(** X7: [findSlabByAddr] never answers more than the length of the
    sequence, sorted or not; [deleteSlab] panics exactly when it answers
    the length, and when [deleteSlab] returns, the sequence is one slab
    shorter, the sizes of the pool are untouched and the error is nil
    exactly when the unmapping succeeded. *)
Theorem deleteSlab_panics_or_shrinks (munmap : Z -> nat -> option Z)
    (s : slabPool) (a : Z) :
  findSlabByAddr s a <= length (slabs s)
  /\ (deleteSlab hl munmap s a = Panic
      <-> findSlabByAddr s a = length (slabs s))
  /\ (forall s' err, deleteSlab hl munmap s a = Ret (s', err) ->
        exists cur, slabs s !! findSlabByAddr s a = Some cur
          /\ S (length (slabs s')) = length (slabs s)
          /\ objSize s' = objSize s /\ objsPerSlab s' = objsPerSlab s
          /\ (err = None <-> munmap (addr cur) (getTotalLength hl cur) = None)).
Proof.
  pose proof (findSlabByAddr_le s a) as Hle.
  split; [exact Hle|]. split.
  - split.
    + intros Hp. destruct (slabs s !! findSlabByAddr s a) as [cur|] eqn:Hcur.
      * by rewrite (deleteSlab_in_range hl munmap s a cur Hcur) in Hp.
      * apply lookup_ge_None in Hcur. lia.
    + apply deleteSlab_out_of_range.
  - intros s' err Hdel.
    destruct (slabs s !! findSlabByAddr s a) as [cur|] eqn:Hcur.
    + rewrite (deleteSlab_in_range hl munmap s a cur Hcur) in Hdel.
      inversion Hdel; subst s' err. exists cur. split; [reflexivity|].
      apply lookup_lt_Some in Hcur as Hlt.
      cbn [slabs withSlabs objSize objsPerSlab]. split_and!; auto.
      * rewrite length_delete by eauto. lia.
      * by destruct (munmap _ _).
    + rewrite deleteSlab_out_of_range in Hdel; [discriminate|].
      apply lookup_ge_None in Hcur. lia.
Qed.

End SlabSequence.

(** ** Content search on any number of targets *)

Lemma length_collect (received : list result) : forall rs0 : list ObjAddr,
  length (collect received rs0) = length rs0.
Proof.
  unfold collect. induction received as [|res received IH]; intros rs0; [done|].
  cbn [fold_left]. by rewrite IH, length_insert.
Qed.

(** An entry of the result set is the initial one if nothing was received
    for its index, and a received address otherwise. *)
Lemma collect_lookup (received : list result) : forall (rs0 : list ObjAddr) k r,
  collect received rs0 !! k = Some r ->
  (rs0 !! k = Some r /\ forall x, (k, x) ∉ received) \/ (k, r) ∈ received.
Proof.
  unfold collect. induction received as [|[idx a] received IH]; intros rs0 k r Hr.
  - left. split; [exact Hr|]. intros x Hx. by apply elem_of_nil in Hx.
  - cbn [fold_left fst snd] in Hr. apply IH in Hr as [[Hr Hnone]|Hin].
    + destruct (decide (idx = k)) as [->|Hne].
      * right. apply elem_of_cons. left.
        apply lookup_lt_Some in Hr as Hlt. rewrite length_insert in Hlt.
        rewrite list_lookup_insert_eq in Hr by done. congruence.
      * left. rewrite list_lookup_insert_ne in Hr by done. split; [exact Hr|].
        intros x Hx. apply elem_of_cons in Hx as [Hx|Hx]; [congruence|].
        by apply (Hnone x).
    + right. apply elem_of_cons. by right.
Qed.

Lemma elem_of_slotMatches sl bytes n : forall i j,
  j ∈ slotMatches sl bytes i n <-> (i <= j /\ j < i + n /\ holds sl j bytes).
Proof.
  induction n as [|n IH]; intros i j; cbn [slotMatches].
  - split; [intros H; by apply elem_of_nil in H|lia].
  - destruct (holdsb sl i bytes) eqn:Hh.
    + rewrite elem_of_cons, IH. apply holdsb_holds in Hh. split.
      * intros [->|(H1 & H2 & H3)]; split_and!; auto; lia.
      * intros (H1 & H2 & H3). destruct (decide (j = i)); [by left|right].
        split_and!; auto; lia.
    + rewrite IH. split.
      * intros (H1 & H2 & H3). split_and!; auto; lia.
      * intros (H1 & H2 & H3). split_and!; auto; try lia.
        destruct (decide (j = i)) as [->|]; [|lia].
        apply holdsb_holds in H3. congruence.
Qed.

Section Targets.
Variable hl : nat -> nat.

Lemma elem_of_poolMatches s l bytes x :
  x ∈ poolMatches hl s l bytes
  <-> exists sl j, sl ∈ l /\ j < objsPerSlab s /\ holds sl j bytes
        /\ x = slotAddr hl sl j.
Proof.
  unfold poolMatches. rewrite list_elem_of_bind. split.
  - intros (sl & Hx & Hsl). apply list_elem_of_fmap in Hx as (j & -> & Hj).
    apply elem_of_slotMatches in Hj as (_ & Hj & Hh). exists sl, j. auto.
  - intros (sl & j & Hsl & Hj & Hh & ->). exists sl. split; [|exact Hsl].
    apply list_elem_of_fmap. exists j. split; [reflexivity|].
    apply elem_of_slotMatches. split_and!; auto; lia.
Qed.

(** [search] on bytes of the pool's object size: it returns, and it finds
    exactly when some occupied slot holds the bytes. *)
Lemma search_found_iff s bytes :
  wfPool s -> length bytes = objSize s ->
  exists a found, search hl s bytes = Ret (a, found)
    /\ (found = true <->
        exists sl j, sl ∈ slabs s /\ j < objsPerSlab s /\ holds sl j bytes).
Proof.
  intros Hwf Hlen. rewrite (search_spec hl s bytes Hwf Hlen).
  destruct (poolMatches hl s (slabs s) bytes) as [|x ms] eqn:Hms.
  - exists 0%Z, false. split; [reflexivity|]. split; [discriminate|].
    intros (sl & j & Hsl & Hj & Hh). exfalso.
    assert (Hx : slotAddr hl sl j ∈ poolMatches hl s (slabs s) bytes)
      by (apply elem_of_poolMatches; eauto 10).
    rewrite Hms in Hx. by apply elem_of_nil in Hx.
  - exists x, true. split; [reflexivity|]. split; [|done]. intros _.
    assert (Hx : x ∈ poolMatches hl s (slabs s) bytes)
      by (rewrite Hms; apply elem_of_cons; by left).
    apply elem_of_poolMatches in Hx as (sl & j & Hsl & Hj & Hh & _). eauto.
Qed.

Lemma matchTargets_spec n stored a : length stored = n ->
  forall searching k,
    Forall (fun t => length t = n) searching ->
    exists hits, matchTargets n stored a k searching = Ret hits
      /\ forall idx x, (idx, x) ∈ hits
           <-> (x = a /\ k <= idx /\ searching !! (idx - k) = Some stored).
Proof.
  intros Hstored searching. induction searching as [|t rest IH]; intros k Hall.
  - exists []. split; [reflexivity|]. intros idx x. split.
    + intros H. by apply elem_of_nil in H.
    + intros (_ & _ & H). by rewrite lookup_nil in H.
  - apply Forall_cons in Hall as [Ht Hrest].
    destruct (IH (S k) Hrest) as (more & Hmore & Hspec).
    cbn [matchTargets]. rewrite (sameBytes_spec n stored t 0) by (simpl; lia).
    rewrite !drop_0, Hmore. cbn [obind]. eexists. split; [reflexivity|].
    intros idx x. destruct (bytesEqb stored t) eqn:Heq.
    + apply bytesEqb_eq in Heq. subst t. rewrite elem_of_cons, Hspec. split.
      * intros [Hx|(-> & Hk & Hl)].
        -- inversion Hx; subst. split_and!; auto. by rewrite Nat.sub_diag.
        -- split_and!; auto; [lia|].
           replace (idx - k) with (S (idx - S k)) by lia. exact Hl.
      * intros (-> & Hk & Hl). destruct (decide (idx = k)) as [->|Hne]; [by left|].
        right. split_and!; auto; [lia|].
        replace (idx - k) with (S (idx - S k)) in Hl by lia. exact Hl.
    + rewrite Hspec. split.
      * intros (-> & Hk & Hl). split_and!; auto; [lia|].
        replace (idx - k) with (S (idx - S k)) by lia. exact Hl.
      * intros (-> & Hk & Hl). destruct (decide (idx = k)) as [->|Hne].
        -- rewrite Nat.sub_diag in Hl. cbn in Hl. inversion Hl; subst t.
           assert (bytesEqb stored stored = true) by (by apply bytesEqb_eq).
           congruence.
        -- split_and!; auto; [lia|].
           replace (idx - k) with (S (idx - S k)) in Hl by lia. exact Hl.
Qed.

Lemma slabTask_spec s searching sl n : forall j,
  wfSlab s sl -> Forall (fun t => length t = objSize s) searching ->
  j + n <= objsPerSlab s ->
  exists q, slabTask hl s searching sl j n = Ret q
    /\ forall idx x, (idx, x) ∈ q
         <-> exists i t, j <= i /\ i < j + n /\ searching !! idx = Some t
               /\ holds sl i t /\ x = slotAddr hl sl i.
Proof.
  induction n as [|n IH]; intros j Hwf Hall Hjn.
  - exists []. split; [reflexivity|]. intros idx x. split.
    + intros H. by apply elem_of_nil in H.
    + intros (i & t & ? & ? & _). lia.
  - destruct (IH (S j) Hwf Hall ltac:(lia)) as (later & Hlater & Hspec).
    cbn [slabTask]. rewrite Hlater.
    destruct (bitTest sl j) eqn:Hbit.
    + pose proof (getObjByIdx_length s sl j Hwf ltac:(lia)) as Hobj.
      destruct (matchTargets_spec (objSize s) (getObjByIdx sl j)
                  (objAddrFromObj hl sl j) Hobj searching 0 Hall)
        as (here & Hhere & Hhspec).
      rewrite Hhere. cbn [obind]. eexists. split; [reflexivity|].
      intros idx x. rewrite elem_of_app, Hhspec, Hspec. split.
      * intros [(-> & _ & Hl)|(i & t & H1 & H2 & H3 & H4 & H5)].
        -- rewrite Nat.sub_0_r in Hl. exists j, (getObjByIdx sl j).
           split_and!; auto; try lia. by split.
        -- exists i, t. split_and!; auto; lia.
      * intros (i & t & H1 & H2 & H3 & [Hb Hv] & ->).
        destruct (decide (i = j)) as [->|Hne].
        -- left. split_and!; auto; [lia|]. by rewrite Nat.sub_0_r, Hv.
        -- right. exists i, t. split_and!; auto; try lia. by split.
    + cbn [obind app]. eexists. split; [reflexivity|].
      intros idx x. rewrite Hspec. split.
      * intros (i & t & H1 & H2 & H3 & H4 & H5). exists i, t. split_and!; auto; lia.
      * intros (i & t & H1 & H2 & H3 & [Hb Hv] & ->).
        destruct (decide (i = j)) as [->|Hne]; [congruence|].
        exists i, t. split_and!; auto; try lia. by split.
Qed.

Lemma slabTasks_spec s searching l :
  Forall (wfSlab s) l -> Forall (fun t => length t = objSize s) searching ->
  exists qs, slabTasks hl s searching l = Ret qs
    /\ forall idx x, (idx, x) ∈ concat qs
         <-> exists sl i t, sl ∈ l /\ i < objsPerSlab s
               /\ searching !! idx = Some t /\ holds sl i t
               /\ x = slotAddr hl sl i.
Proof.
  intros Hwf Hall. induction Hwf as [|sl l Hsl _ (qs & Hqs & Hspec)].
  - exists []. split; [reflexivity|]. intros idx x. split.
    + intros H. by apply elem_of_nil in H.
    + intros (sl & i & t & H & _). by apply elem_of_nil in H.
  - destruct (slabTask_spec s searching sl (objsPerSlab s) 0 Hsl Hall ltac:(lia))
      as (q & Hq & Hqspec).
    cbn [slabTasks]. rewrite Hq, Hqs. cbn [obind]. eexists. split; [reflexivity|].
    intros idx x. rewrite concat_cons, elem_of_app, Hqspec, Hspec. split.
    + intros [(i & t & _ & H2 & H3 & H4 & H5)|(sl' & i & t & H1 & H2 & H3 & H4 & H5)].
      * exists sl, i, t. split_and!; auto. apply elem_of_cons. by left.
      * exists sl', i, t. split_and!; auto. apply elem_of_cons. by right.
    + intros (sl' & i & t & H1 & H2 & H3 & H4 & H5).
      apply elem_of_cons in H1 as [->|H1].
      * left. exists i, t. split_and!; auto; lia.
      * right. exists sl', i, t. auto.
Qed.

(** What [searchBatched] answers on targets of the pool's object size. *)
Lemma searchBatched_char s searching sched :
  wfPool s -> Forall (fun sl => (0 < addr sl)%Z) (slabs s) ->
  Forall (fun t => length t = objSize s) searching ->
  exists rs, searchBatched hl s searching sched = Ret rs
    /\ length rs = length searching
    /\ forall k t r, searching !! k = Some t -> rs !! k = Some r ->
         (r = 0%Z /\ forall sl i, sl ∈ slabs s -> i < objsPerSlab s ->
                       ~ holds sl i t)
         \/ (r <> 0%Z /\ exists sl i, sl ∈ slabs s /\ i < objsPerSlab s
                           /\ holds sl i t /\ r = slotAddr hl sl i).
Proof.
  intros [_ Hwf] Hpos Hall.
  destruct (slabTasks_spec s searching (slabs s) Hwf Hall) as (qs & Hqs & Hspec).
  unfold searchBatched. rewrite Hqs. cbn [obind]. eexists. split; [reflexivity|].
  split; [by rewrite length_collect, length_replicate|].
  intros k t r Ht Hr. apply collect_lookup in Hr as [[Hr Hnone]|Hin].
  - left. apply lookup_replicate in Hr as [-> _]. split; [reflexivity|].
    intros sl i Hsl Hi Hh. apply (Hnone (slotAddr hl sl i)).
    rewrite mergeBy_perm. apply Hspec. exists sl, i, t. auto.
  - right. rewrite mergeBy_perm in Hin.
    apply Hspec in Hin as (sl & i & t' & Hsl & Hi & Ht' & Hh & ->).
    assert (t' = t) by congruence. subst t'. split; [|eauto 10].
    rewrite Forall_forall in Hpos. specialize (Hpos sl Hsl).
    pose proof (slotAddr_pos hl sl i Hpos). lia.
Qed.

(** X8: whenever [searchBatched] returns, the slice it returns is as long
    as the slice of searched objects, whatever the pool holds and whatever
    the lengths of the searched objects. *)
Theorem searchBatched_same_length (s : slabPool) (searching : list (list byte))
    (sched : list nat) (rs : list ObjAddr) :
  searchBatched hl s searching sched = Ret rs ->
  length rs = length searching.
Proof.
  unfold searchBatched. destruct (slabTasks hl s searching (slabs s)) as [qs|];
    [|discriminate].
  cbn [obind]. intros H. inversion H. by rewrite length_collect, length_replicate.
Qed.

(** X9: on a pool within its construction parameters whose slabs are mapped
    at positive addresses, [searchBatched] on searched objects of the
    pool's object size returns under every schedule, and the entry of a
    searched object is 0 when no occupied slot holds it and otherwise the
    address of an occupied slot that holds exactly its bytes. *)
Theorem searchBatched_entries (s : slabPool) (searching : list (list byte))
    (sched : list nat) :
  wfPool s -> Forall (fun sl => (0 < addr sl)%Z) (slabs s) ->
  Forall (fun t => length t = objSize s) searching ->
  exists rs, searchBatched hl s searching sched = Ret rs
    /\ length rs = length searching
    /\ forall k t r, searching !! k = Some t -> rs !! k = Some r ->
         (r = 0%Z /\ forall sl i, sl ∈ slabs s -> i < objsPerSlab s ->
                       ~ holds sl i t)
         \/ (r <> 0%Z /\ exists sl i, sl ∈ slabs s /\ i < objsPerSlab s
                           /\ holds sl i t /\ r = slotAddr hl sl i).
Proof. apply searchBatched_char. Qed.

(** X10: under the same conditions the batched search and the single
    search agree on every searched object: its entry is nonzero exactly
    when [search] finds it. *)
Theorem searchBatched_agrees_with_search (s : slabPool)
    (searching : list (list byte)) (sched : list nat) :
  wfPool s -> Forall (fun sl => (0 < addr sl)%Z) (slabs s) ->
  Forall (fun t => length t = objSize s) searching ->
  exists rs, searchBatched hl s searching sched = Ret rs
    /\ forall k t r, searching !! k = Some t -> rs !! k = Some r ->
         exists a found, search hl s t = Ret (a, found)
           /\ (r <> 0%Z <-> found = true).
Proof.
  intros Hwf Hpos Hall.
  destruct (searchBatched_char s searching sched Hwf Hpos Hall)
    as (rs & Hrs & _ & Hentries).
  exists rs. split; [exact Hrs|]. intros k t r Ht Hr.
  assert (Hlen : length t = objSize s).
  { rewrite Forall_forall in Hall. apply Hall, list_elem_of_lookup. eauto. }
  destruct (search_found_iff s t Hwf Hlen) as (a & found & Hsearch & Hiff).
  exists a, found. split; [exact Hsearch|].
  destruct (Hentries k t r Ht Hr) as [[-> Hnone]|[Hnz (sl & i & Hsl & Hi & Hh & _)]].
  - split; [done|]. intros Hf. apply Hiff in Hf as (sl & j & Hsl & Hj & Hh).
    by destruct (Hnone sl j Hsl Hj).
  - split; [|done]. intros _. apply Hiff. eauto.
Qed.

(** *** Pools without an occupied slot *)

Lemma slabTask_free s searching sl n : forall j,
  (forall i, j <= i -> i < j + n -> bitTest sl i = false) ->
  slabTask hl s searching sl j n = Ret [].
Proof.
  induction n as [|n IH]; intros j Hfree; [done|]. cbn [slabTask].
  rewrite (Hfree j) by lia. rewrite IH; [done|]. intros i H1 H2. apply Hfree; lia.
Qed.

Lemma searchSlots_free s sl bytes n : forall j,
  (forall i, j <= i -> i < j + n -> bitTest sl i = false) ->
  searchSlots hl s sl bytes j n = Ret None.
Proof.
  induction n as [|n IH]; intros j Hfree; [done|]. cbn [searchSlots].
  rewrite (Hfree j) by lia. apply IH. intros i H1 H2. apply Hfree; lia.
Qed.

(** X11: on a pool none of whose slots is occupied (the empty pool, or
    slabs that [addSlab] has mapped and nothing was added to) [search]
    finds nothing and [searchBatched] answers 0 for every searched object,
    under every schedule and also for searched objects of another length
    than the pool's object size: without an occupied slot nothing is
    compared. *)
Theorem search_nothing_occupied (s : slabPool) :
  (forall sl i, sl ∈ slabs s -> i < objsPerSlab s -> bitTest sl i = false) ->
  (forall bytes, search hl s bytes = Ret (0%Z, false))
  /\ (forall searching sched,
        searchBatched hl s searching sched
        = Ret (replicate (length searching) 0%Z)).
Proof.
  intros Hfree. split.
  - intros bytes. unfold search. destruct (negb _); [reflexivity|].
    induction (slabs s) as [|sl l IH]; [reflexivity|]. cbn [searchSlabs].
    rewrite searchSlots_free.
    + cbn [obind]. apply IH. intros sl' i Hin. apply Hfree. apply elem_of_cons. by right.
    + intros i _ Hi. apply Hfree; [apply elem_of_cons; by left|lia].
  - intros searching sched. unfold searchBatched.
    assert (Htasks : slabTasks hl s searching (slabs s)
                     = Ret (replicate (length (slabs s)) [])).
    { induction (slabs s) as [|sl l IH]; [reflexivity|]. cbn [slabTasks].
      rewrite slabTask_free.
      - rewrite IH; [reflexivity|].
        intros sl' i Hin. apply Hfree. apply elem_of_cons. by right.
      - intros i _ Hi. apply Hfree; [apply elem_of_cons; by left|lia]. }
    rewrite Htasks. cbn [obind].
    assert (Hrecv : mergeBy sched (replicate (length (slabs s)) (@nil result)) = []).
    { apply Permutation_nil_r. rewrite mergeBy_perm.
      rewrite concat_all_nil; [done|]. by apply Forall_replicate. }
    by rewrite Hrecv.
Qed.

End Targets.

(** ** Adding objects *)

Lemma nextClear_Some sl n : forall i0 i,
  nextClear sl i0 n = Some i -> i0 <= i /\ i < i0 + n /\ bitTest sl i = false.
Proof.
  induction n as [|n IH]; intros i0 i H; [discriminate|]. cbn [nextClear] in H.
  destruct (bitTest sl i0) eqn:Hb.
  - apply IH in H as (H1 & H2 & H3). split_and!; auto; lia.
  - inversion H; subst. split_and!; auto; lia.
Qed.

(** Writing [obj] over the bytes at [off] leaves the bytes elsewhere. *)
Lemma lookup_overwritten (data obj : list byte) off p :
  off + length obj <= length data ->
  p < off \/ off + length obj <= p ->
  (take off data ++ obj ++ drop (off + length obj) data) !! p = data !! p.
Proof.
  intros Hfit Hp.
  assert (Hlen : length (take off data) = off) by (rewrite length_take; lia).
  destruct Hp as [Hp|Hp].
  - rewrite lookup_app_l by lia. by apply lookup_take_lt.
  - rewrite lookup_app_r by lia. rewrite lookup_app_r by lia.
    rewrite lookup_drop, Hlen. f_equal. lia.
Qed.

Section Adding.
Variable hl : nat -> nat.

(** What a successful [addObj] does to a slab of the pool, on an object of
    the pool's object size. *)
Lemma addObj_accepts s sl obj sl' a :
  wfSlab s sl -> length obj = objSize s ->
  addObj hl sl obj = (sl', a, true) ->
  exists i, i < objsPerSlab s
    /\ bitTest sl i = false
    /\ a = slotAddr hl sl i
    /\ holds sl' i obj
    /\ (forall j, j <> i ->
          bitTest sl' j = bitTest sl j /\ getObjByIdx sl' j = getObjByIdx sl j)
    /\ (forall j, slotAddr hl sl' j = slotAddr hl sl j)
    /\ addr sl' = addr sl.
Proof.
  intros Hwf Hlen Hadd. pose proof Hwf as (Hsz & Hn & Hbits & Hdata).
  unfold addObj in Hadd.
  destruct (nextClear sl 0 (slab_objsPerSlab sl)) as [i|] eqn:Hi; [|discriminate].
  apply nextClear_Some in Hi as (_ & Hi & Hfree). rewrite Hn in Hi.
  injection Hadd as <- <-. exists i.
  pose proof (getObjByIdx_length s sl i Hwf Hi) as Hview.
  assert (Hcopy : goCopy (getObjByIdx sl i) obj = obj).
  { unfold goCopy. rewrite Hview, <- Hlen, take_ge, drop_ge by lia.
    apply app_nil_r. }
  rewrite Hcopy.
  assert (Hfit : i * slab_objSize sl + length obj <= length (slab_data sl)).
  { rewrite Hdata, Hsz, Hlen. nia. }
  split; [exact Hi|]. split; [exact Hfree|]. split; [reflexivity|].
  split; [|split; [|split; reflexivity]].
  - split.
    + unfold bitTest. cbn [slab_bits].
      by rewrite list_lookup_insert_eq by lia.
    + unfold getObjByIdx. cbn [slab_objSize slab_data].
      rewrite drop_app_length' by (rewrite length_take; lia).
      rewrite take_app_length' by lia. reflexivity.
  - intros j Hj. split.
    + unfold bitTest. cbn [slab_bits]. by rewrite list_lookup_insert_ne.
    + unfold getObjByIdx. cbn [slab_objSize slab_data].
      apply list_eq. intros q. rewrite !lookup_take, !lookup_drop.
      destruct (decide (q < slab_objSize sl)) as [Hq|]; [|reflexivity].
      assert (Hso : slab_objSize sl = length obj) by lia.
      rewrite Hso in *.
      apply lookup_overwritten; [exact Hfit|].
      destruct (Nat.lt_trichotomy j i) as [?|[?|?]]; [left; nia|done|right; nia].
Qed.

(** The three ways [add] can go. *)
Lemma add_shape s obj m s' a sa err :
  add hl s obj m = (s', (a, sa, err)) ->
  (exists pre sl post sl',
     slabs s = pre ++ sl :: post
     /\ Forall (fun x => rejects hl x obj) pre
     /\ addObj hl sl obj = (sl', a, true)
     /\ s' = withSlabs s (pre ++ sl' :: post) /\ sa = 0%Z /\ err = None)
  \/ (Forall (fun x => rejects hl x obj) (slabs s)
      /\ exists e, m = MmapFail e /\ s' = s /\ a = 0%Z /\ sa = 0%Z
           /\ err = Some (Errno e))
  \/ (Forall (fun x => rejects hl x obj) (slabs s)
      /\ exists base ns ns' a0 ok,
           m = MmapOk base
           /\ newSlab (objSize s) (objsPerSlab s) (MmapOk base) = inl ns
           /\ addObj hl ns obj = (ns', a0, ok)
           /\ s' = withSlabs s
                     (take (sortSearch (length (slabs s))
                              (fun i => (addrAt (slabs s) i <? base)%Z)) (slabs s)
                      ++ ns' :: drop (sortSearch (length (slabs s))
                              (fun i => (addrAt (slabs s) i <? base)%Z)) (slabs s))
           /\ ((ok = true /\ a = a0 /\ sa = base /\ err = None)
               \/ (ok = false /\ a = 0%Z /\ sa = 0%Z /\ err = Some errNewSlab))).
Proof.
  intros Hadd.
  destruct (addLoop_cases hl (slabs s) obj)
    as [Hall|(pre & sl & post & sl' & a' & Hl & Hpre & Hsl)].
  - destruct m as [base|e].
    + right; right. split; [exact Hall|].
      destruct (newSlab_ok (objSize s) (objsPerSlab s) base) as (ns & Hns & _).
      rewrite (add_new hl s obj base ns Hall Hns) in Hadd.
      destruct (addObj hl ns obj) as [[ns' a0] ok] eqn:Hobj. cbn [fst snd] in Hadd.
      exists base, ns, ns', a0, ok. split_and!; auto; try congruence.
      destruct ok; [left|right]; inversion Hadd; auto.
    + right; left. split; [exact Hall|].
      rewrite (add_mmap_fail hl s obj e Hall) in Hadd. inversion Hadd. eauto 10.
  - left. rewrite (add_existing hl s obj m pre sl post sl' a' Hl Hpre Hsl) in Hadd.
    inversion Hadd; subst. exists pre, sl, post, sl'. split_and!; auto.
Qed.

(** After a successful [add] of an object of the pool's object size, the
    returned address is the address of an occupied slot of the pool that
    holds the object, and every other slot is what it was. *)
Lemma add_result_held s obj m s' a sa :
  wfPool s -> length obj = objSize s ->
  add hl s obj m = (s', (a, sa, None)) ->
  wfPool s' /\ objSize s' = objSize s /\ objsPerSlab s' = objsPerSlab s
  /\ (exists sl i, sl ∈ slabs s' /\ i < objsPerSlab s /\ holds sl i obj
        /\ a = slotAddr hl sl i)
  /\ ((forall sl i, sl ∈ slabs s -> i < objsPerSlab s -> ~ holds sl i obj) ->
      forall sl i, sl ∈ slabs s' -> i < objsPerSlab s -> holds sl i obj ->
        slotAddr hl sl i = a).
Proof.
  intros Hwf Hlen Hadd.
  assert (Hwf' : wfPool s').
  { pose proof (wfPool_add hl s obj m Hwf) as H. by rewrite Hadd in H. }
  pose proof Hwf as [_ Hslabs]. rewrite Forall_forall in Hslabs.
  split; [exact Hwf'|].
  destruct (add_shape s obj m s' a sa None Hadd)
    as [(pre & sl & post & sl' & Hl & Hpre & Hobj & -> & _ & _)
       |[(_ & e & _ & _ & _ & _ & Herr)
        |(Hall & base & ns & ns' & a0 & ok & -> & Hns & Hobj & -> & Hres)]];
    [| discriminate |].
  - assert (Hsl : sl ∈ slabs s).
    { rewrite Hl. apply elem_of_app. right. apply elem_of_cons. by left. }
    destruct (addObj_accepts s sl obj sl' a (Hslabs sl Hsl) Hlen Hobj)
      as (i & Hi & Hfree & -> & Hheld & Hother & Haddrs & _).
    cbn [slabs withSlabs objSize objsPerSlab]. split_and!; auto.
    + exists sl', i. split_and!; auto.
      apply elem_of_app. right. apply elem_of_cons. by left.
    + intros Hnew x j Hx Hj [Hb Hv].
      apply elem_of_app in Hx as [Hx|Hx];
        [|apply elem_of_cons in Hx as [->|Hx]].
      * exfalso. apply (Hnew x j); [|exact Hj|by split].
        rewrite Hl. apply elem_of_app. by left.
      * destruct (decide (j = i)) as [->|Hne]; [apply Haddrs|].
        exfalso. destruct (Hother j Hne) as [Hb' Hv'].
        apply (Hnew sl j Hsl Hj). split; congruence.
      * exfalso. apply (Hnew x j); [|exact Hj|by split].
        rewrite Hl. apply elem_of_app. right. apply elem_of_cons. by right.
  - destruct Hres as [(-> & <- & _ & _)|(_ & _ & _ & Herr)]; [|discriminate].
    pose proof (wfSlab_newSlab s base ns Hns) as Hwfns.
    destruct (addObj_accepts s ns obj ns' a Hwfns Hlen Hobj)
      as (i & Hi & Hfree & -> & Hheld & Hother & Haddrs & _).
    cbn [slabs withSlabs objSize objsPerSlab]. split_and!; auto.
    + exists ns', i. split_and!; auto.
      apply elem_of_app. right. apply elem_of_cons. by left.
    + intros Hnew x j Hx Hj [Hb Hv].
      apply elem_of_app in Hx as [Hx|Hx];
        [|apply elem_of_cons in Hx as [->|Hx]].
      * exfalso. apply (Hnew x j); [|exact Hj|by split].
        by apply (subseteq_take _ _ x Hx).
      * destruct (decide (j = i)) as [->|Hne]; [apply Haddrs|].
        exfalso. destruct (Hother j Hne) as [Hb' _].
        rewrite Hb' in Hb. inversion Hns; subst ns.
        unfold bitTest in Hb. cbn [slab_bits] in Hb.
        destruct (replicate (objsPerSlab s) false !! j) eqn:Hr; [|discriminate].
        apply lookup_replicate in Hr as [-> _]. discriminate.
      * exfalso. apply (Hnew x j); [|exact Hj|by split].
        by apply (subseteq_drop _ _ x Hx).
Qed.

(** X12: on a pool within its construction parameters, after [add] has
    added an object of the pool's object size without error, [search] for
    the object's bytes finds them; and when no occupied slot held these
    bytes before, [search] answers the very address [add] returned. *)
Theorem add_then_search (s s' : slabPool) (obj : list byte) (m : mmapOutcome)
    (a : ObjAddr) (sa : SlabAddr) :
  wfPool s -> length obj = objSize s ->
  add hl s obj m = (s', (a, sa, None)) ->
  (exists a', search hl s' obj = Ret (a', true))
  /\ ((forall sl i, sl ∈ slabs s -> i < objsPerSlab s -> ~ holds sl i obj) ->
      search hl s' obj = Ret (a, true)).
Proof.
  intros Hwf Hlen Hadd.
  destruct (add_result_held s obj m s' a sa Hwf Hlen Hadd)
    as (Hwf' & Hsz & Hn & (sl & i & Hsl & Hi & Hh & Ha) & Honly).
  assert (Hlen' : length obj = objSize s') by congruence.
  rewrite (search_spec hl s' obj Hwf' Hlen').
  assert (Hin : a ∈ poolMatches hl s' (slabs s') obj).
  { apply elem_of_poolMatches. exists sl, i. rewrite Hn. auto. }
  destruct (poolMatches hl s' (slabs s') obj) as [|x ms] eqn:Hms;
    [by apply elem_of_nil in Hin|].
  split; [eauto|]. intros Hnew.
  assert (Hx : x ∈ poolMatches hl s' (slabs s') obj)
    by (rewrite Hms; apply elem_of_cons; by left).
  apply elem_of_poolMatches in Hx as (sl0 & j & Hsl0 & Hj & Hh0 & ->).
  rewrite Hn in Hj. by rewrite (Honly Hnew sl0 j Hsl0 Hj Hh0).
Qed.

(** What [add] does to the sequence of base addresses. *)
Lemma add_addrs (s : slabPool) (obj : list byte) (m : mmapOutcome) :
  objSize (fst (add hl s obj m)) = objSize s
  /\ objsPerSlab (fst (add hl s obj m)) = objsPerSlab s
  /\ (addr <$> slabs (fst (add hl s obj m)) = addr <$> slabs s
      \/ exists base k,
           m = MmapOk base
           /\ Forall (fun x => rejects hl x obj) (slabs s)
           /\ k <= length (slabs s)
           /\ addr <$> slabs (fst (add hl s obj m))
              = take k (addr <$> slabs s) ++ base :: drop k (addr <$> slabs s)).
Proof.
  destruct (add hl s obj m) as [s' [[a sa] err]] eqn:Hadd. cbn [fst].
  destruct (add_shape s obj m s' a sa err Hadd)
    as [(pre & sl & post & sl' & Hl & Hpre & Hobj & -> & _ & _)
       |[(_ & e & _ & -> & _)
        |(Hall & base & ns & ns' & a0 & ok & -> & Hns & Hobj & -> & _)]];
    cbn [slabs withSlabs objSize objsPerSlab]; split_and!; auto.
  - left. rewrite Hl, !fmap_app, !fmap_cons.
    pose proof (addObj_addr hl sl obj) as Ha. rewrite Hobj in Ha. cbn [fst] in Ha.
    by rewrite Ha.
  - right. eexists base, _. split_and!; [reflexivity|exact Hall|apply sortSearch_le|].
    rewrite fmap_app, fmap_cons, fmap_take, fmap_drop.
    pose proof (addObj_addr hl ns obj) as Ha. rewrite Hobj in Ha. cbn [fst] in Ha.
    rewrite Ha. inversion Hns; subst ns. reflexivity.
Qed.


(** X13: [add] never drops, replaces or reorders a slab: the base addresses
    after the call are those before it, in the same order, with at most
    one more, the base address the mapping answered, and that only if no
    slab of the pool took the object.  The sizes of the pool stay. *)
Theorem add_keeps_slabs (s : slabPool) (obj : list byte) (m : mmapOutcome) :
  objSize (fst (add hl s obj m)) = objSize s
  /\ objsPerSlab (fst (add hl s obj m)) = objsPerSlab s
  /\ (addr <$> slabs (fst (add hl s obj m)) = addr <$> slabs s
      \/ exists base k,
           m = MmapOk base
           /\ Forall (fun x => rejects hl x obj) (slabs s)
           /\ k <= length (slabs s)
           /\ addr <$> slabs (fst (add hl s obj m))
              = take k (addr <$> slabs s) ++ base :: drop k (addr <$> slabs s)).
Proof. apply add_addrs. Qed.

End Adding.

(** ** Deleting a slab and searching, runs of [add] *)

Section Composition.
Variable hl : nat -> nat.

Lemma poolMatches_delete s l k cur bytes :
  l !! k = Some cur ->
  (forall i, i < objsPerSlab s -> ~ holds cur i bytes) ->
  poolMatches hl s (delete k l) bytes = poolMatches hl s l bytes.
Proof.
  intros Hk Hnone. unfold poolMatches.
  rewrite <- (take_drop_middle l k cur Hk) at 2.
  rewrite delete_take_drop, !bind_app, bind_cons.
  rewrite (slotMatches_none cur bytes (objsPerSlab s) 0);
    [reflexivity|]. intros j _ Hj. apply Hnone. lia.
Qed.

(** X14: on a sorted pool within its construction parameters, deleting a
    slab that holds no occurrence of the searched bytes does not change
    the answer of [search] for them: what was found in another slab is
    found at the same address.  And bytes that only the deleted slab held
    are not found any more. *)
Theorem deleteSlab_then_search (munmap : Z -> nat -> option Z)
    (s s' : slabPool) (cur : slab) (err : option error) (bytes : list byte) :
  wfPool s -> sortedDesc (slabs s) -> cur ∈ slabs s ->
  length bytes = objSize s ->
  deleteSlab hl munmap s (addr cur) = Ret (s', err) ->
  ((forall i, i < objsPerSlab s -> ~ holds cur i bytes) ->
   search hl s' bytes = search hl s bytes)
  /\ ((forall sl i, sl ∈ slabs s -> addr sl <> addr cur ->
         i < objsPerSlab s -> ~ holds sl i bytes) ->
      search hl s' bytes = Ret (0%Z, false)).
Proof.
  intros Hwf Hs Hin Hlen Hdel.
  assert (Hwf' : wfPool s') by (eapply wfPool_deleteSlab; eauto).
  pose proof (findSlabByAddr_base s cur Hs Hin) as Hcur.
  rewrite (deleteSlab_in_range hl munmap s (addr cur) cur Hcur) in Hdel.
  injection Hdel as <- <-.
  set (k := findSlabByAddr s (addr cur)) in *.
  rewrite (search_spec hl _ bytes Hwf' Hlen).
  change (poolMatches hl (withSlabs s (delete k (slabs s)))
            (slabs (withSlabs s (delete k (slabs s)))) bytes)
    with (poolMatches hl s (delete k (slabs s)) bytes).
  split.
  - intros Hnone. rewrite (search_spec hl s bytes Hwf Hlen).
    by rewrite (poolMatches_delete s (slabs s) k cur bytes Hcur Hnone).
  - intros Hnone. rewrite (poolMatches_none hl s (delete k (slabs s)) bytes);
      [reflexivity|].
    intros j sl i Hj Hi. apply Hnone; [|  |exact Hi].
    + apply (list_elem_of_delete_inv sl k), list_elem_of_lookup. eauto.
    + intros Heq. destruct (decide (j < k)).
      * rewrite list_lookup_delete_lt in Hj by lia.
        pose proof (sortedDesc_addr_inj _ _ _ _ _ Hs Hj Hcur Heq). lia.
      * rewrite list_lookup_delete_ge in Hj by lia.
        pose proof (sortedDesc_addr_inj _ _ _ _ _ Hs Hj Hcur Heq). lia.
Qed.

Lemma add_sorted s obj m :
  sortedDesc (slabs s) -> freshBase (slabs s) m ->
  sortedDesc (slabs (fst (add hl s obj m))).
Proof.
  intros Hs Hfresh.
  destruct (add hl s obj m) as [s' [[a sa] err]] eqn:Hadd. cbn [fst].
  destruct (add_shape hl s obj m s' a sa err Hadd)
    as [(pre & sl & post & sl' & Hl & Hpre & Hobj & -> & _ & _)
       |[(_ & e & _ & -> & _)
        |(Hall & base & ns & ns' & a0 & ok & -> & Hns & Hobj & -> & _)]];
    cbn [slabs withSlabs]; [| exact Hs |].
  - unfold sortedDesc in *. rewrite Hl in Hs. rewrite fmap_app, fmap_cons in *.
    pose proof (addObj_addr hl sl obj) as Ha. rewrite Hobj in Ha. cbn [fst] in Ha.
    by rewrite Ha.
  - apply sortedDesc_insert; [exact Hs| |intros sl Hin; by apply (Hfresh base)].
    pose proof (addObj_addr hl ns obj) as Ha. rewrite Hobj in Ha. cbn [fst] in Ha.
    rewrite Ha. by inversion Hns.
Qed.

Lemma addAll_sorted calls : forall s,
  sortedDesc (slabs s) ->
  NoDup (callBases calls ++ (addr <$> slabs s)) ->
  sortedDesc (slabs (fst (addAll hl s calls))).
Proof.
  induction calls as [|[obj m] calls IH]; intros s Hs Hnd; [exact Hs|].
  cbn [addAll].
  assert (Hfresh : freshBase (slabs s) m).
  { intros b -> sl Hsl Heq. cbn in Hnd. apply NoDup_cons in Hnd as [Hb _].
    apply Hb, elem_of_app. right. apply list_elem_of_fmap. eauto. }
  pose proof (add_sorted s obj m Hs Hfresh) as Hs1.
  destruct (add_addrs hl s obj m) as (_ & _ & Haddrs).
  destruct (add hl s obj m) as [s1 r]. cbn [fst] in *.
  specialize (IH s1 Hs1).
  destruct (addAll hl s1 calls) as [s2 rs]. cbn [fst] in *. apply IH.
  destruct Haddrs as [->|(base & k & -> & _ & Hk & ->)].
  - destruct m as [b|e]; cbn in Hnd; [by apply NoDup_cons in Hnd as [_ ?]|done].
  - cbn in Hnd.
    assert (Hperm : callBases calls ++ take k (addr <$> slabs s)
                      ++ base :: drop k (addr <$> slabs s)
                    ≡ₚ base :: callBases calls ++ (addr <$> slabs s)).
    { rewrite <- Permutation_middle, take_drop. by rewrite <- Permutation_middle. }
    by rewrite Hperm.
Qed.

(** X15: a run of [add] calls keeps the pool sorted by strictly descending
    base address, provided the pool was sorted and the base addresses the
    mapping capability answers during the run are distinct from each other
    and from those of the pool. *)
Theorem addAll_keeps_sorted (s : slabPool)
    (calls : list (list byte * mmapOutcome)) :
  sortedDesc (slabs s) ->
  NoDup (callBases calls ++ (addr <$> slabs s)) ->
  sortedDesc (slabs (fst (addAll hl s calls))).
Proof. apply addAll_sorted. Qed.

(** X16: after [add] has added an object of the pool's object size
    without error, on a pool that is then sorted and in which no slab's
    base address lies inside the region of another slab, [findSlabByAddr]
    of the returned object address lands on the slab whose slot at that
    address holds the object. *)
Theorem add_then_findSlabByAddr (s s' : slabPool) (obj : list byte)
    (m : mmapOutcome) (a : ObjAddr) (sa : SlabAddr) :
  wfPool s -> length obj = objSize s ->
  add hl s obj m = (s', (a, sa, None)) ->
  sortedDesc (slabs s') ->
  (forall x y, x ∈ slabs s' -> y ∈ slabs s' -> owns hl x (addr y) ->
     addr y = addr x) ->
  exists sl i,
    slabs s' !! findSlabByAddr s' a = Some sl
    /\ i < objsPerSlab s /\ holds sl i obj /\ a = slotAddr hl sl i.
Proof.
  intros Hwf Hlen Hadd Hs' Hapart.
  destruct (add_result_held hl s obj m s' a sa Hwf Hlen Hadd)
    as ([Hpos' Hwf'] & Hsz & Hn & (sl & i & Hsl & Hi & Hh & ->) & _).
  exists sl, i. split_and!; auto.
  apply list_elem_of_lookup in Hsl as [k Hk].
  rewrite (findSlabByAddr_owns hl s' (slotAddr hl sl i) k sl Hs' Hapart Hk);
    [exact Hk|].
  rewrite Forall_forall in Hwf'.
  destruct (Hwf' sl) as (Hsz' & Hn' & _); [apply list_elem_of_lookup; eauto|].
  unfold owns, slotAddr, getTotalLength, addr. rewrite Hsz', Hn', Hn. nia.
Qed.

End Composition.

(** ** The further properties at work on the example pools *)

(** A concrete sequence is sorted; a concrete pool is well formed. *)
Ltac sorted_example := apply descendingb_true; reflexivity.
Ltac wf_example :=
  split; [cbn; lia|]; repeat (constructor; [by repeat split|]); constructor.

Lemma addSlab_then_findSlabByAddr_witness :
  sortedDesc (slabs poolABC) /\ freshBase (slabs poolABC) (MmapOk 2000)
  /\ addSlab poolABC (MmapOk 2000) = (poolCNAB, inl (1, slabNew))
  /\ findSlabByAddr poolCNAB 2000%Z = 1
  /\ slabs poolCNAB !! 1 = Some slabNew.
Proof.
  assert (Hs : sortedDesc (slabs poolABC)) by sorted_example.
  assert (Hfresh : freshBase (slabs poolABC) (MmapOk 2000)).
  { intros b Hb sl Hin. inversion Hb; subst b. each_slab Hin; cbn; lia. }
  split; [exact Hs|]. split; [exact Hfresh|]. split; [reflexivity|].
  exact (addSlab_then_findSlabByAddr poolABC poolCNAB 2000%Z 1 slabNew
           Hs Hfresh eq_refl).
Defined.

Lemma addSlab_then_deleteSlab_witness :
  sortedDesc (slabs poolABC) /\ freshBase (slabs poolABC) (MmapOk 2000)
  /\ addSlab poolABC (MmapOk 2000) = (poolCNAB, inl (1, slabNew))
  /\ deleteSlab hdr16 munmapFails poolCNAB 2000%Z
     = Ret (poolABC, Some (Errno 22)).
Proof.
  assert (Hs : sortedDesc (slabs poolABC)) by sorted_example.
  assert (Hfresh : freshBase (slabs poolABC) (MmapOk 2000)).
  { intros b Hb sl Hin. inversion Hb; subst b. each_slab Hin; cbn; lia. }
  split; [exact Hs|]. split; [exact Hfresh|]. split; [reflexivity|].
  exact (addSlab_then_deleteSlab hdr16 munmapFails poolABC poolCNAB 2000%Z 1
           slabNew Hs Hfresh eq_refl).
Defined.

Lemma deleteSlab_removes_greatest_le_witness :
  sortedDesc (slabs poolABC) /\ slabAB ∈ slabs poolABC /\ (addr slabAB <= 1018)%Z
  /\ exists k best,
       slabs poolABC !! k = Some best
       /\ (addr slabAB <= addr best <= 1018)%Z
       /\ (forall sl', sl' ∈ slabs poolABC -> (addr sl' <= 1018)%Z ->
             (addr sl' <= addr best)%Z)
       /\ deleteSlab hdr16 munmapOk poolABC 1018%Z
          = Ret (withSlabs poolABC (delete k (slabs poolABC)),
                 Errno <$> munmapOk (addr best) (getTotalLength hdr16 best)).
Proof.
  assert (Hs : sortedDesc (slabs poolABC)) by sorted_example.
  assert (Hin : slabAB ∈ slabs poolABC).
  { apply elem_of_cons. right. apply elem_of_cons. left. reflexivity. }
  assert (Hle : (addr slabAB <= 1018)%Z) by (cbn; lia).
  split; [exact Hs|]. split; [exact Hin|]. split; [exact Hle|].
  exact (deleteSlab_removes_greatest_le hdr16 munmapOk poolABC 1018%Z slabAB
           Hs Hin Hle).
Defined.

Lemma deleteSlab_then_findSlabByAddr_witness :
  sortedDesc (slabs poolABC) /\ slabAB ∈ slabs poolABC
  /\ deleteSlab hdr16 munmapOk poolABC (addr slabAB) = Ret (mkPool [slabC] 2 2, None)
  /\ (findSlabByAddr (mkPool [slabC] 2 2) (addr slabAB) = 1
      \/ exists sl,
           slabs (mkPool [slabC] 2 2)
             !! findSlabByAddr (mkPool [slabC] 2 2) (addr slabAB) = Some sl
           /\ (addr sl < addr slabAB)%Z).
Proof.
  assert (Hs : sortedDesc (slabs poolABC)) by sorted_example.
  assert (Hin : slabAB ∈ slabs poolABC).
  { apply elem_of_cons. right. apply elem_of_cons. left. reflexivity. }
  split; [exact Hs|]. split; [exact Hin|]. split; [reflexivity|].
  exact (deleteSlab_then_findSlabByAddr hdr16 munmapOk poolABC
           (mkPool [slabC] 2 2) slabAB None Hs Hin eq_refl).
Defined.

Lemma regions_apart_poolABC :
  forall x y, x ∈ slabs poolABC -> y ∈ slabs poolABC ->
    owns hdr16 x (addr y) -> addr y = addr x.
Proof.
  intros x y Hx Hy [Hlo Hhi].
  each_slab Hx; each_slab Hy; cbn in *; lia.
Qed.

Lemma findSlabByAddr_owner_witness :
  sortedDesc (slabs poolABC)
  /\ slabs poolABC !! 1 = Some slabAB /\ owns hdr16 slabAB 1018%Z
  /\ findSlabByAddr poolABC 1018%Z = 1.
Proof.
  assert (Hs : sortedDesc (slabs poolABC)) by sorted_example.
  assert (Hown : owns hdr16 slabAB 1018%Z) by (split; cbn; lia).
  split; [exact Hs|]. split; [reflexivity|]. split; [exact Hown|].
  exact (findSlabByAddr_owner hdr16 poolABC 1018%Z 1 slabAB Hs
           regions_apart_poolABC eq_refl Hown).
Defined.

Lemma deleteSlab_panics_or_shrinks_witness :
  deleteSlab hdr16 munmapOk poolABC 500%Z = Panic
  /\ exists cur, slabs poolABC !! findSlabByAddr poolABC 1000%Z = Some cur
       /\ S (length [slabC]) = length (slabs poolABC)
       /\ (Some (Errno 22) = None
           <-> munmapFails (addr cur) (getTotalLength hdr16 cur) = None).
Proof.
  destruct (deleteSlab_panics_or_shrinks hdr16 munmapOk poolABC 500%Z)
    as (_ & Hpanic & _).
  destruct (deleteSlab_panics_or_shrinks hdr16 munmapFails poolABC 1000%Z)
    as (_ & _ & Hret).
  split; [apply Hpanic; reflexivity|].
  destruct (Hret (mkPool [slabC] 2 2) (Some (Errno 22)) eq_refl)
    as (cur & Hcur & Hlen & _ & _ & Herr).
  exists cur. auto.
Defined.

Lemma searchBatched_same_length_witness :
  searchBatched hdr16 poolABC [objA; [x5a]; objC] [1; 0]
  = Ret [1016%Z; 0%Z; 3016%Z]
  /\ length [1016%Z; 0%Z; 3016%Z] = length [objA; [x5a]; objC].
Proof.
  split; [reflexivity|].
  exact (searchBatched_same_length hdr16 poolABC [objA; [x5a]; objC] [1; 0]
           [1016%Z; 0%Z; 3016%Z] eq_refl).
Defined.

Lemma searchBatched_entries_witness :
  wfPool poolABC /\ Forall (fun sl => (0 < addr sl)%Z) (slabs poolABC)
  /\ Forall (fun t => length t = objSize poolABC) [objB; [x5a; x5a]]
  /\ exists rs, searchBatched hdr16 poolABC [objB; [x5a; x5a]] [1; 0] = Ret rs
       /\ length rs = 2
       /\ forall k t r, [objB; [x5a; x5a]] !! k = Some t -> rs !! k = Some r ->
            (r = 0%Z /\ forall sl i, sl ∈ slabs poolABC -> i < objsPerSlab poolABC ->
                          ~ holds sl i t)
            \/ (r <> 0%Z /\ exists sl i, sl ∈ slabs poolABC /\ i < objsPerSlab poolABC
                              /\ holds sl i t /\ r = slotAddr hdr16 sl i).
Proof.
  assert (Hwf : wfPool poolABC) by wf_example.
  assert (Hpos : Forall (fun sl => (0 < addr sl)%Z) (slabs poolABC)).
  { repeat (constructor; [cbn; lia|]). constructor. }
  assert (Hlen : Forall (fun t => length t = objSize poolABC) [objB; [x5a; x5a]]).
  { repeat (constructor; [reflexivity|]). constructor. }
  split; [exact Hwf|]. split; [exact Hpos|]. split; [exact Hlen|].
  exact (searchBatched_entries hdr16 poolABC [objB; [x5a; x5a]] [1; 0]
           Hwf Hpos Hlen).
Defined.

Lemma searchBatched_agrees_with_search_witness :
  wfPool poolABC /\ Forall (fun sl => (0 < addr sl)%Z) (slabs poolABC)
  /\ Forall (fun t => length t = objSize poolABC) [objB; [x5a; x5a]]
  /\ exists rs, searchBatched hdr16 poolABC [objB; [x5a; x5a]] [1; 0] = Ret rs
       /\ forall k t r, [objB; [x5a; x5a]] !! k = Some t -> rs !! k = Some r ->
            exists a found, search hdr16 poolABC t = Ret (a, found)
              /\ (r <> 0%Z <-> found = true).
Proof.
  assert (Hwf : wfPool poolABC) by wf_example.
  assert (Hpos : Forall (fun sl => (0 < addr sl)%Z) (slabs poolABC)).
  { repeat (constructor; [cbn; lia|]). constructor. }
  assert (Hlen : Forall (fun t => length t = objSize poolABC) [objB; [x5a; x5a]]).
  { repeat (constructor; [reflexivity|]). constructor. }
  split; [exact Hwf|]. split; [exact Hpos|]. split; [exact Hlen|].
  exact (searchBatched_agrees_with_search hdr16 poolABC [objB; [x5a; x5a]] [1; 0]
           Hwf Hpos Hlen).
Defined.

Lemma search_nothing_occupied_witness :
  (forall sl i, sl ∈ slabs poolNew -> i < objsPerSlab poolNew ->
     bitTest sl i = false)
  /\ search hdr16 poolNew [x00; x00] = Ret (0%Z, false)
  /\ searchBatched hdr16 poolNew [[x00; x00]; [x00]; []] [0]
     = Ret [0%Z; 0%Z; 0%Z].
Proof.
  assert (Hfree : forall sl i, sl ∈ slabs poolNew -> i < objsPerSlab poolNew ->
            bitTest sl i = false).
  { intros sl i Hin Hi. each_slab Hin. cbn in Hi.
    destruct i as [|[|i]]; [reflexivity|reflexivity|lia]. }
  destruct (search_nothing_occupied hdr16 poolNew Hfree) as [Hsearch Hbatched].
  split; [exact Hfree|]. split; [apply Hsearch|].
  exact (Hbatched [[x00; x00]; [x00]; []] [0]).
Defined.

Lemma add_then_search_witness :
  wfPool poolAB /\ length objC = objSize poolAB
  /\ add hdr16 poolAB objC (MmapOk 3000) = (poolABC, (3016%Z, 3000%Z, None))
  /\ (exists a', search hdr16 poolABC objC = Ret (a', true))
  /\ search hdr16 poolABC objC = Ret (3016%Z, true).
Proof.
  assert (Hwf : wfPool poolAB) by wf_example.
  split; [exact Hwf|]. split; [reflexivity|]. split; [reflexivity|].
  destruct (add_then_search hdr16 poolAB poolABC objC (MmapOk 3000) 3016%Z 3000%Z
              Hwf eq_refl eq_refl) as [Hfound Hsame].
  split; [exact Hfound|]. apply Hsame.
  intros sl i Hin Hi [Hbit Hobj]. each_slab Hin.
  destruct i as [|[|i]]; cbn in Hi; try lia; discriminate.
Defined.

Lemma deleteSlab_then_search_witness :
  wfPool poolABC /\ sortedDesc (slabs poolABC) /\ slabAB ∈ slabs poolABC
  /\ length objC = objSize poolABC
  /\ deleteSlab hdr16 munmapOk poolABC (addr slabAB) = Ret (mkPool [slabC] 2 2, None)
  /\ search hdr16 (mkPool [slabC] 2 2) objC = search hdr16 poolABC objC
  /\ search hdr16 (mkPool [slabC] 2 2) objB = Ret (0%Z, false).
Proof.
  assert (Hwf : wfPool poolABC) by wf_example.
  assert (Hs : sortedDesc (slabs poolABC)) by sorted_example.
  assert (Hin : slabAB ∈ slabs poolABC).
  { apply elem_of_cons. right. apply elem_of_cons. left. reflexivity. }
  split; [exact Hwf|]. split; [exact Hs|]. split; [exact Hin|].
  split; [reflexivity|]. split; [reflexivity|].
  destruct (deleteSlab_then_search hdr16 munmapOk poolABC (mkPool [slabC] 2 2)
              slabAB None objC Hwf Hs Hin eq_refl eq_refl) as [Hsame _].
  destruct (deleteSlab_then_search hdr16 munmapOk poolABC (mkPool [slabC] 2 2)
              slabAB None objB Hwf Hs Hin eq_refl eq_refl) as [_ Hgone].
  split.
  - apply Hsame. intros i Hi [Hbit Hobj].
    destruct i as [|[|i]]; cbn in Hi; try lia; discriminate.
  - apply Hgone. intros sl i Hsl Hne Hi [Hbit Hobj]. each_slab Hsl.
    + destruct i as [|[|i]]; cbn in Hi; try lia; discriminate.
    + by apply Hne.
Defined.

Lemma addAll_keeps_sorted_witness :
  sortedDesc (slabs (NewSlabPool 2 2))
  /\ NoDup (callBases callsABC ++ (addr <$> slabs (NewSlabPool 2 2)))
  /\ sortedDesc (slabs (fst (addAll hdr16 (NewSlabPool 2 2) callsABC))).
Proof.
  assert (Hs : sortedDesc (slabs (NewSlabPool 2 2))) by sorted_example.
  assert (Hnd : NoDup (callBases callsABC ++ (addr <$> slabs (NewSlabPool 2 2)))).
  { cbn. repeat (constructor;
      [rewrite ?elem_of_cons, elem_of_nil; intros H; intuition discriminate|]).
    constructor. }
  split; [exact Hs|]. split; [exact Hnd|].
  exact (addAll_keeps_sorted hdr16 (NewSlabPool 2 2) callsABC Hs Hnd).
Defined.

Lemma add_then_findSlabByAddr_witness :
  wfPool poolAB /\ length objC = objSize poolAB
  /\ add hdr16 poolAB objC (MmapOk 3000) = (poolABC, (3016%Z, 3000%Z, None))
  /\ sortedDesc (slabs poolABC)
  /\ exists sl i,
       slabs poolABC !! findSlabByAddr poolABC 3016%Z = Some sl
       /\ i < objsPerSlab poolAB /\ holds sl i objC
       /\ 3016%Z = slotAddr hdr16 sl i.
Proof.
  assert (Hwf : wfPool poolAB) by wf_example.
  assert (Hs : sortedDesc (slabs poolABC)) by sorted_example.
  split; [exact Hwf|]. split; [reflexivity|]. split; [reflexivity|].
  split; [exact Hs|].
  exact (add_then_findSlabByAddr hdr16 poolAB poolABC objC (MmapOk 3000)
           3016%Z 3000%Z Hwf eq_refl eq_refl Hs regions_apart_poolABC).
Defined.
